(** * tsc-wrapped [main.ts]: patch loop, fixes tree and phase ordering

    A shallow embedding of [tools/@angular/tsc-wrapped/src/main.ts].
    The file follows the source top-down: JavaScript strings and arrays
    first, then Node's [path] and [fs] as the program uses them, then
    [mkdirParent] and [main]. *)

From stdpp Require Import gmap strings list sorting.
From Stdlib Require Import ZArith Lia.

Local Open Scope Z_scope.

(** ** JavaScript strings

    A string is its sequence of code units.  Nothing below depends on
    the alphabet, so a code unit is kept as an [ascii]. *)

Definition str := list Ascii.ascii.

(** An index argument of [substring]: anything below 0 counts as 0,
    anything beyond the length as the length. *)
Definition clamp (len : nat) (i : Z) : nat := Nat.min (Z.to_nat i) len.

(** [s.substring(a, b)]: both bounds are clamped and swapped when they
    come in the wrong order. *)
Definition substring (s : str) (a b : Z) : str :=
  let a' := clamp (length s) a in
  let b' := clamp (length s) b in
  take (Nat.max a' b' - Nat.min a' b') (drop (Nat.min a' b') s).

(** [s.substring(a)]: the end defaults to the length. *)
Definition substring_from (s : str) (a : Z) : str :=
  drop (clamp (length s) a) s.

(** ** [Array.prototype.sort]

    [sort cmp] keeps [x] before [y] unless [cmp x y > 0].  Elements that
    compare equal keep their order, as ECMAScript 2019 requires and as
    the insertion sort V8 ran on short arrays always did. *)

Fixpoint insert_sorted {A} (cmp : A → A → Z) (x : A) (l : list A) : list A :=
  match l with
  | [] => [x]
  | y :: l' => if decide (0 < cmp x y) then y :: insert_sorted cmp x l' else x :: l
  end.

Definition sort {A} (cmp : A → A → Z) (l : list A) : list A :=
  foldr (insert_sorted cmp) [] l.

(** ** TSLint results *)

Record Replacement := mkReplacement {
  startPosition : Z;
  endPosition : Z;
  text : str
}.

Record Fix := mkFix { replacements : list Replacement }.

Record RuleFailure := mkFailure { getFixes : list Fix }.

Record LintResult := mkLintResult {
  failureCount : Z;
  output : str;
  failures : list RuleFailure
}.

(** The callback of [result.failures.reduce] (lines 87-93). *)
Definition accumulate (acc : list Replacement) (f : RuleFailure) : list Replacement :=
  match getFixes f with
  | fx :: _ => acc ++ replacements fx
  | [] => acc
  end.

Definition collectReplacements (found : list RuleFailure) : list Replacement :=
  foldl accumulate [] found.

(** What the specification asks of the collection: each finding gives
    the replacements of its first fix, or nothing when it has no fix. *)
Definition firstFixReplacements (f : RuleFailure) : list Replacement :=
  match head (getFixes f) with
  | Some fx => replacements fx
  | None => []
  end.

(** ** The patch loop (lines 97-103) *)

(** The comparator handed to [sort] on line 97. *)
Definition byEndDescending (a b : Replacement) : Z :=
  endPosition b - endPosition a.

(** One round of the [forEach] body: the head comes from the buffer
    built so far, the tail from the untouched [source]. *)
Definition applyReplacement (source newSource : str) (r : Replacement) : str :=
  substring newSource 0 (startPosition r) ++ text r ++
  substring_from source (endPosition r).

Definition patch (source : str) (rs : list Replacement) : str :=
  foldl (applyReplacement source) source (sort byEndDescending rs).

(** Preconditions named by the specification. *)
Definition rangeValid (source : str) (r : Replacement) : Prop :=
  0 ≤ startPosition r ∧ startPosition r ≤ endPosition r ∧
  endPosition r ≤ Z.of_nat (length source).

Definition disjoint (a b : Replacement) : Prop :=
  endPosition a ≤ startPosition b ∨ endPosition b ≤ startPosition a.

(** Pairwise: each replacement against all the later ones. *)
Fixpoint nonOverlapping (rs : list Replacement) : Prop :=
  match rs with
  | [] => True
  | r :: rest => Forall (disjoint r) rest ∧ nonOverlapping rest
  end.

(** The length the specification promises for the patched text. *)
Definition promisedLength (source : str) (rs : list Replacement) : Z :=
  Z.of_nat (length source)
  - foldr (λ r n, (endPosition r - startPosition r) + n) 0 rs
  + foldr (λ r n, Z.of_nat (length (text r)) + n) 0 rs.

(** ** Node's [path]

    A path is kept split at its separators.  [absolute] records a
    leading separator; ['.'] is the relative path with no segment; a
    segment is the name of a directory entry or [".."].  A path written
    with ['.'] or an empty segment inside ([a/./b], [a//b]) is not
    among these values - [path.relative], whose result is what [main]
    hands to [mkdirParent], returns none - and a statement about paths
    of plain names says so with [plainName].  Locations on disk are
    absolute paths in normal form, written as the list of their
    segments. *)

Abbreviation abspath := (list string).

Record path := mkPath { absolute : bool; segments : list string }.

#[global] Instance path_eq_dec : EqDecision path.
Proof. solve_decision. Defined.

Definition dot : path := mkPath false [].

(** [path.dirname]: drops the last segment; ['.'] and ['/'] are their
    own parents. *)
Definition dirname (p : path) : path :=
  mkPath (absolute p) (removelast (segments p)).

(** Normalisation as [path.join] performs it on such segments: [".."]
    steps out of the directory reached so far, and stays put at the
    root; any other segment is a name to descend into. *)
Fixpoint resolve (base : abspath) (segs : list string) : abspath :=
  match segs with
  | [] => base
  | s :: rest =>
      if decide (s = "..") then resolve (removelast base) rest
      else resolve (base ++ [s]) rest
  end.

(** [path.join(base, p)] for an absolute [base]. *)
Definition join (base : abspath) (p : path) : abspath :=
  resolve base (segments p).

Fixpoint relative_segments (from to : abspath) : list string :=
  match from, to with
  | f :: from', t :: to' =>
      if decide (f = t) then relative_segments from' to'
      else replicate (length from) ".." ++ to
  | _, _ => replicate (length from) ".." ++ to
  end.

(** [path.relative(from, to)]: climb out of what is left of [from]
    after the common prefix, then descend into what is left of [to]. *)
Definition relative (from to : abspath) : path :=
  mkPath false (relative_segments from to).

(** ** Node's [fs] and the state of a run *)

Inductive node := Dir | File (data : str).

#[global] Instance node_eq_dec : EqDecision node.
Proof. solve_decision. Defined.

Inductive event :=
  | ReadConfiguration
  | CreateProgram (seeded : bool)
  | GetOptionsDiagnostics
  | Codegen
  | TypeCheck
  | Mkdir (p : abspath)
  | Lint (file : abspath)
  | LogOutput (out : str)
  | LogCreatingFix (newPath : path)
  | WriteFile (p : abspath) (data : str)
  | EmitPrimary
  | EmitMetadata.

#[global] Instance event_eq_dec : EqDecision event.
Proof. solve_decision. Defined.

Inductive error :=
  | ENOENT | ENOTDIR | EEXIST | EISDIR
  | TypeError
  | OptionsDiagnosticError
  | Fault (msg : string).

(** The disk, and the calls made so far in the order they were made. *)
Record world := mkWorld {
  disk : gmap (list string) node;
  log : list event
}.

Inductive outcome (A : Type) :=
  | Ok (a : A)
  | Throw (e : error)
  | OutOfFuel.
Arguments Ok {A} a.
Arguments Throw {A} e.
Arguments OutOfFuel {A}.

(** A computation reads and writes the [world] and either returns,
    throws, or runs out of the recursion budget it was given. *)
Definition M (A : Type) : Type := world → outcome A * world.

#[global] Instance M_ret : MRet M := λ A a w, (Ok a, w).

#[global] Instance M_bind : MBind M := λ A B k m w,
  match m w with
  | (Ok a, w') => k a w'
  | (Throw e, w') => (Throw e, w')
  | (OutOfFuel, w') => (OutOfFuel, w')
  end.

Definition throw {A} (e : error) : M A := λ w, (Throw e, w).

Definition record (e : event) : M unit :=
  λ w, (Ok tt, mkWorld (disk w) (log w ++ [e])).

Definition exists_on (d : gmap (list string) node) (p : abspath) : bool :=
  bool_decide (is_Some (d !! p)).

Definition existsSync (p : abspath) : M bool :=
  λ w, (Ok (exists_on (disk w) p), w).

(** The fault the system reports for a path that is not there.  The
    path is walked from the root: when the walk meets a regular file
    the answer is [ENOTDIR], and [ENOENT] when a name is simply
    missing. *)
Fixpoint fileAbove (d : gmap (list string) node) (here : abspath)
    (rest : list string) : bool :=
  match d !! here with
  | Some (File _) => true
  | _ =>
      match rest with
      | [] => false
      | s :: rest' => fileAbove d (here ++ [s]) rest'
      end
  end.

Definition absentFault (d : gmap (list string) node) (p : abspath) : error :=
  if fileAbove d [] p then ENOTDIR else ENOENT.

(** [fs.mkdirSync]: the parent must be a directory and the name free. *)
Definition mkdirSync (p : abspath) : M unit := λ w,
  if decide (p = []) then (Throw EEXIST, w) else
  match disk w !! removelast p with
  | None => (Throw (absentFault (disk w) (removelast p)), w)
  | Some (File _) => (Throw ENOTDIR, w)
  | Some Dir =>
      match disk w !! p with
      | Some _ => (Throw EEXIST, w)
      | None => (Ok tt, mkWorld (<[p := Dir]> (disk w)) (log w ++ [Mkdir p]))
      end
  end.

(** [fs.writeFileSync]: creates or overwrites a file in an existing
    directory. *)
Definition writeFileSync (p : abspath) (data : str) : M unit := λ w,
  if decide (p = []) then (Throw EISDIR, w) else
  match disk w !! removelast p with
  | None => (Throw (absentFault (disk w) (removelast p)), w)
  | Some (File _) => (Throw ENOTDIR, w)
  | Some Dir =>
      match disk w !! p with
      | Some Dir => (Throw EISDIR, w)
      | _ => (Ok tt, mkWorld (<[p := File data]> (disk w))
                             (log w ++ [WriteFile p data]))
      end
  end.

(** [fs.lstatSync(p).isFile()] *)
Definition lstatSync_isFile (p : abspath) : M bool := λ w,
  match disk w !! p with
  | None => (Throw (absentFault (disk w) p), w)
  | Some (File _) => (Ok true, w)
  | Some Dir => (Ok false, w)
  end.

(** ** [mkdirParent] (lines 134-141)

    [fuel] bounds the depth of the recursion. *)
Fixpoint mkdirParent (fuel : nat) (baseDir : abspath) (dir : path) : M unit :=
  match fuel with
  | O => λ w, (OutOfFuel, w)
  | S fuel' =>
      if decide (dir = dot) then mret tt else
      found ← existsSync (join baseDir dir);
      if found : bool then mret tt else
      _ ← mkdirParent fuel' baseDir (dirname dir);
      mkdirSync (join baseDir dir)
  end.

(** ** The collaborators of [main]

    The compiler, the linter, the emitters and the helpers of [./tsc]
    are outside this file.  [main] is read against any behaviour they
    may have: each is a field of [Env], together with the working
    directory of the process. *)

Record NgOptions := mkNgOptions {
  basePath : abspath;
  skipTemplateCodegen : bool;
  skipMetadataEmit : bool
}.

Record ParsedCommandLine (O : Type) := mkParsed {
  fileNames : list abspath;
  options : O
}.
Arguments mkParsed {O} _ _.
Arguments fileNames {O} _.
Arguments options {O} _.

(** The two host wrappers of [./compiler_host] handed to [tsc.emit]. *)
Inductive EmitHost (H P : Type) :=
  | TsickleHost (host : H) (program : P)
  | MetadataWriterHost (host : H) (program : P).
Arguments TsickleHost {H P} host program.
Arguments MetadataWriterHost {H P} host program.

Record Env := mkEnv {
  cwd : abspath;
  CompilerOptions : Type;
  Host : Type;
  Program : Type;
  Diagnostic : Type;
  readConfiguration :
    path → abspath → gmap (list string) node →
    error + (ParsedCommandLine CompilerOptions * NgOptions);
  createCompilerHost : CompilerOptions → Host;
  createProgram :
    list abspath → CompilerOptions → Host → option Program →
    gmap (list string) node → Program;
  getOptionsDiagnostics : Program → list Diagnostic;
  typeCheck : Host → Program → error + unit;
  getSourceFile : Program → abspath → option str;
  lint : abspath → str → Program → error + LintResult;
  emit :
    EmitHost Host Program → Program → gmap (list string) node →
    (error + unit) * gmap (list string) node
}.

Definition completion {A} (r : error + A) : outcome A :=
  match r with
  | inl e => Throw e
  | inr a => Ok a
  end.

(** Modelled from the spec: [check] of [./tsc], which is not among the
    sources.  The specification makes a non-empty sequence of
    diagnostics fatal and lets an empty one pass. *)
Definition check {D} (diags : list D) : M unit :=
  match diags with
  | [] => mret tt
  | _ :: _ => throw OptionsDiagnosticError
  end.

(** [for (const x of xs) body] *)
Fixpoint forOf {A} (body : A → M unit) (xs : list A) : M unit :=
  match xs with
  | [] => mret tt
  | x :: rest => _ ← body x; forOf body rest
  end.

Section Main.

Variable E : Env.

(** The type [CodegenExtension] of line 12; an extension may write to
    the disk.  Its promise is looked at once it has settled: [inr tt]
    when it was fulfilled, [inl e] when it was rejected or the call
    itself threw.  A promise that never settles leaves [main] pending
    for ever; such a run is not among the ones described here. *)
Definition CodegenExtension : Type :=
  NgOptions → Program E → Host E → gmap (list string) node →
  (error + unit) * gmap (list string) node.

(** What [codegen] holds once line 35 is passed: the caller's extension,
    or the stand-in [() => Promise.resolve(null)]. *)
Inductive codegenStep :=
  | Supplied (ext : CodegenExtension)
  | Resolved.

(** Where [fs] looks for a path given as a string. *)
Definition locate (p : path) : abspath :=
  resolve (if absolute p then [] else cwd E) (segments p).

Definition tsc_readConfiguration (project : path) (base : abspath)
  : M (ParsedCommandLine (CompilerOptions E) * NgOptions) := λ w,
  (completion (readConfiguration E project base (disk w)),
   mkWorld (disk w) (log w ++ [ReadConfiguration])).

Definition ts_createProgram (files : list abspath) (o : CompilerOptions E)
    (host : Host E) (old : option (Program E)) : M (Program E) := λ w,
  (Ok (createProgram E files o host old (disk w)),
   mkWorld (disk w) (log w ++ [CreateProgram (bool_decide (is_Some old))])).

Definition program_getOptionsDiagnostics (program : Program E)
  : M (list (Diagnostic E)) := λ w,
  (Ok (getOptionsDiagnostics E program),
   mkWorld (disk w) (log w ++ [GetOptionsDiagnostics])).

Definition tsc_typeCheck (host : Host E) (program : Program E) : M unit := λ w,
  (completion (typeCheck E host program),
   mkWorld (disk w) (log w ++ [TypeCheck])).

(** [program.getSourceFile(file).getFullText()]: a file the program
    does not know gives [undefined], and the method call on it throws. *)
Definition getFullText (program : Program E) (file : abspath) : M str :=
  match getSourceFile E program file with
  | Some source => mret source
  | None => throw TypeError
  end.

(** [new Linter(file, source, options, program).lint()] *)
Definition linter_lint (file : abspath) (source : str) (program : Program E)
  : M LintResult := λ w,
  (completion (lint E file source program),
   mkWorld (disk w) (log w ++ [Lint file])).

Definition tsc_emit (h : EmitHost (Host E) (Program E)) (program : Program E)
  : M unit := λ w,
  let '(r, d) := emit E h program (disk w) in
  (completion r,
   mkWorld d (log w ++ [match h with
                        | TsickleHost _ _ => EmitPrimary
                        | MetadataWriterHost _ _ => EmitMetadata
                        end])).

Definition runCodegen (c : codegenStep) (ngOptions : NgOptions)
    (program : Program E) (host : Host E) : M unit :=
  match c with
  | Supplied ext => λ w,
      let '(r, d) := ext ngOptions program host (disk w) in
      (completion r, mkWorld d (log w ++ [Codegen]))
  | Resolved => mret tt
  end.

(** Lines 17-26. *)
Definition configLoad (project : path) (base : option path)
  : M (ParsedCommandLine (CompilerOptions E) * NgOptions) :=
  isFile ← lstatSync_isFile (locate project);
  let projectDir := if isFile : bool then dirname project else project in
  let base' := join (cwd E) (default projectDir base) in
  cfg ← tsc_readConfiguration project base';
  mret (cfg.1, mkNgOptions base' (skipTemplateCodegen cfg.2) (skipMetadataEmit cfg.2)).

(** Lines 33-35. *)
Definition chooseCodegen (ngOptions : NgOptions) (codegen : option CodegenExtension)
  : codegenStep :=
  match codegen with
  | Some ext => if skipTemplateCodegen ngOptions then Resolved else Supplied ext
  | None => Resolved
  end.

(** The body of the loop over [parsed.fileNames] (lines 79-111).  The
    directory handed to [mkdirParent] is relative, so the budget given
    is the number of its segments plus one. *)
Definition processFile (fixDir : abspath) (newProgram : Program E)
    (file : abspath) : M unit :=
  source ← getFullText newProgram file;
  result ← linter_lint file source newProgram;
  if decide (0 < failureCount result) then
    _ ← record (LogOutput (output result));
    let rs := collectReplacements (failures result) in
    if decide (0 < length rs)%nat then
      let newSource := patch source rs in
      let newPath := relative (cwd E) file in
      _ ← record (LogCreatingFix newPath);
      _ ← mkdirParent (S (length (segments (dirname newPath)))) fixDir (dirname newPath);
      writeFileSync (join fixDir newPath) newSource
    else mret tt
  else mret tt.

Definition fixDir : abspath := join (cwd E) (mkPath false ["fixes"]).

(** Lines 73-112. *)
Definition analyzeAndPatch (files : list abspath) (newProgram : Program E) : M unit :=
  found ← existsSync fixDir;
  _ ← (if found : bool then mret tt else mkdirSync fixDir);
  forOf (processFile fixDir newProgram) files.

(** The callback of [then] (lines 36-127). *)
Definition afterCodegen (parsed : ParsedCommandLine (CompilerOptions E))
    (ngOptions : NgOptions) (host : Host E) (program : Program E) : M unit :=
  newProgram ← ts_createProgram (fileNames parsed) (options parsed) host (Some program);
  _ ← tsc_typeCheck host newProgram;
  _ ← analyzeAndPatch (fileNames parsed) newProgram;
  _ ← tsc_emit (TsickleHost host newProgram) newProgram;
  if negb (skipMetadataEmit ngOptions)
  then tsc_emit (MetadataWriterHost host newProgram) newProgram
  else mret tt.

(** Lines 28-36, from the parsed configuration on. *)
Definition compile (parsed : ParsedCommandLine (CompilerOptions E))
    (ngOptions : NgOptions) (codegen : option CodegenExtension) : M unit :=
  let host := createCompilerHost E (options parsed) in
  program ← ts_createProgram (fileNames parsed) (options parsed) host None;
  errors ← program_getOptionsDiagnostics program;
  _ ← check errors;
  _ ← runCodegen (chooseCodegen ngOptions codegen) ngOptions program host;
  afterCodegen parsed ngOptions host program.

(** [main] (lines 15-131).  [Ok] is the resolved promise; [Throw] is the
    rejected one, whether the fault was thrown before the promise
    existed or inside it.  The collaborators are taken to answer. *)
Definition main (project : path) (base : option path)
    (codegen : option CodegenExtension) : M unit :=
  cfg ← configLoad project base;
  compile cfg.1 cfg.2 codegen.

End Main.

(** ** The command line (lines 144-153)

    [minimist] hands over what it read for an option: nothing when the
    option was not given, a string, or another value - the number 2016
    for [-p 2016], [true] for a bare [-p], an array for an option given
    twice.  Of a value that is not a string only its truthiness matters
    here.  A string that is not empty is read as a path. *)

Inductive argValue :=
  | ArgAbsent
  | ArgEmpty
  | ArgPath (p : path)
  | ArgOther (truthy : bool).

Record Args := mkArgs {
  arg_p : argValue;
  arg_project : argValue;
  arg_basePath : argValue
}.

Definition truthy (v : argValue) : bool :=
  match v with
  | ArgPath _ => true
  | ArgOther b => b
  | ArgAbsent | ArgEmpty => false
  end.

(** [a || b] *)
Definition orElse (a b : argValue) : argValue := if truthy a then a else b.

(** [args.p || args.project || '.'] *)
Definition projectArg (args : Args) : argValue :=
  orElse (orElse (arg_p args) (arg_project args)) (ArgPath dot).

(** The call of line 146.  [main] is typed for strings, and the values
    come untyped: [fs.lstatSync] (line 18) throws a [TypeError] for a
    locator that is not a string, and so does [path.join] (line 22) for
    a truthy base path that is not one, once [lstatSync] has passed.  A
    falsy base path gives way to the project directory.  No codegen
    extension is passed. *)
Definition cliRun (E : Env) (args : Args) : M unit :=
  match projectArg args with
  | ArgPath project =>
      match arg_basePath args with
      | ArgPath base => main E project (Some base) None
      | ArgOther true =>
          _ ← lstatSync_isFile (locate E project); throw TypeError
      | ArgOther false | ArgAbsent | ArgEmpty => main E project None None
      end
  | _ => throw TypeError
  end.

Inductive errLine :=
  | Stack (e : error)
  | CompilationFailed.

Record Exit := mkExit {
  exitCode : option Z;
  stderr : list errLine;
  after : world
}.

(** Lines 147-152.  [main] resolves with the value of its [then]
    callback, which is [undefined], so a run that succeeds calls
    [process.exit(undefined)]: [exitCode] is [None]. *)
Definition cli (E : Env) (args : Args) (w : world) : option Exit :=
  match cliRun E args w with
  | (Ok _, w') => Some (mkExit None [] w')
  | (Throw e, w') => Some (mkExit (Some 1) [Stack e; CompilationFailed] w')
  | (OutOfFuel, _) => None
  end.

(** ** Vocabulary of the statements *)

Definition lit (s : string) : str := String.list_ascii_of_string s.

(** The order the sort of line 97 leaves the replacements in, and the
    strict order it leaves them in when no two end at the same offset. *)
Definition endsDescend (a b : Replacement) : Prop := endPosition b ≤ endPosition a.

Definition endsDrop (a b : Replacement) : Prop := endPosition b < endPosition a.

(** Start positions that never climb back above the bound [m]. *)
Fixpoint startsDescend (m : nat) (l : list Replacement) : Prop :=
  match l with
  | [] => True
  | r :: rest =>
      (Z.to_nat (startPosition r) ≤ m)%nat ∧
      startsDescend (Z.to_nat (startPosition r)) rest
  end.

(** A disk is a tree: the root is a directory, and whatever exists
    sits in a directory. *)
Definition wellFormed (d : gmap (list string) node) : Prop :=
  d !! [] = Some Dir ∧
  map_Forall (λ p _, p = [] ∨ d !! removelast p = Some Dir) d.


(** The directory that [mkdirParent] reaches after [k] segments of
    [dir]. *)
Definition ancestor (baseDir : abspath) (dir : path) (k : nat) : abspath :=
  baseDir ++ take k (segments dir).


(** The calls to [mkdirSync] for the segments [j+1 .. n] of [dir], in
    that order. *)
Definition mkdirs (baseDir : abspath) (dir : path) (j n : nat) : list event :=
  (λ k, Mkdir (ancestor baseDir dir k)) <$> seq (S j) (n - j).

(** A small disk to run the definitions on: [/], [/r], [/r/src] and
    the file [/r/src/a.ts] holding ["abcdef"]. *)
Definition demoWorld : world :=
  mkWorld (<[ ["r"; "src"; "a.ts"] := File (lit "abcdef") ]>
            (<[ ["r"; "src"] := Dir ]> (<[ ["r"] := Dir ]> (<[ [] := Dir ]> ∅))))
          [].

Definition demoDir : path := mkPath false ["a"; "b"; "c"; "d"].

(** An environment to run [main] in: one source file [/r/src/a.ts]
    holding ["abcdef"], option diagnostics [diags], and a linter that
    always answers [result]. *)
Definition demoEnv (diags : list unit) (result : LintResult) : Env := {|
  cwd := ["r"];
  CompilerOptions := unit;
  Host := unit;
  Program := unit;
  Diagnostic := unit;
  readConfiguration := λ _ _ _,
    inr (mkParsed [["r"; "src"; "a.ts"]] tt, mkNgOptions [] false false);
  createCompilerHost := λ _, tt;
  createProgram := λ _ _ _ _ _, tt;
  getOptionsDiagnostics := λ _, diags;
  typeCheck := λ _ _, inr tt;
  getSourceFile := λ _ _, Some (lit "abcdef");
  lint := λ _ _ _, inr result;
  emit := λ _ _ d, (inr tt, d)
|}.

Definition demoResult : LintResult :=
  mkLintResult 1 (lit "a.ts[1, 4]: finding")
    [mkFailure [mkFix [mkReplacement 3 4 (lit "YY")]]].

(** The same tree after an earlier run left a copy behind: [/r/a.ts]
    and [/r/fixes/a.ts], both holding ["abcdef"]. *)
Definition rerunWorld : world :=
  mkWorld (<[ ["r"; "fixes"; "a.ts"] := File (lit "abcdef") ]>
            (<[ ["r"; "fixes"] := Dir ]>
               (<[ ["r"; "a.ts"] := File (lit "abcdef") ]>
                  (<[ ["r"] := Dir ]> (<[ [] := Dir ]> ∅)))))
          [].

(** Where the patched copy of [file] goes (lines 105 and 109). *)
Definition mirrored (E : Env) (file : abspath) : abspath :=
  join (fixDir E) (relative (cwd E) file).

(** The program [main] builds first (line 29). *)
Definition initialProgram (E : Env) (parsed : ParsedCommandLine (CompilerOptions E))
    (d : gmap (list string) node) : Program E :=
  createProgram E (fileNames parsed) (options parsed)
    (createCompilerHost E (options parsed)) None d.

(** A computation keeps a property [P] of the disk and logs only calls
    that satisfy [Q], whether it returns or throws. *)
Definition steps {A : Type} (P : gmap (list string) node → Prop) (Q : event → Prop)
    (m : M A) : Prop :=
  ∀ w, P (disk w) →
       P (disk (m w).2) ∧ ∃ l, log (m w).2 = log w ++ l ∧ Forall Q l.


(** The demo disk once the [fixes] directory is there. *)
Definition demoFixesWorld : world :=
  mkWorld (<[ ["r"; "fixes"] := Dir ]> (disk demoWorld)) [].

(** The demo disk with a regular file where the [fixes] directory
    should be. *)
Definition blockedWorld : world :=
  mkWorld (<[ ["r"; "fixes"] := File (lit "notes") ]> (disk demoWorld)) [].

(** A lint result with a finding that carries no fix, and one without
    findings. *)
Definition demoUnfixable : LintResult :=
  mkLintResult 1 (lit "a.ts[1, 4]: finding") [mkFailure []].

Definition demoClean : LintResult := mkLintResult 0 [] [].

(** The demo environment with a program that knows only the files in
    [known]. *)
Definition demoEnvKnowing (known : list abspath) (result : LintResult) : Env := {|
  cwd := ["r"];
  CompilerOptions := unit;
  Host := unit;
  Program := unit;
  Diagnostic := unit;
  readConfiguration := λ _ _ _,
    inr (mkParsed known tt, mkNgOptions [] false false);
  createCompilerHost := λ _, tt;
  createProgram := λ _ _ _ _ _, tt;
  getOptionsDiagnostics := λ _, [];
  typeCheck := λ _ _, inr tt;
  getSourceFile := λ _ file,
    if decide (file ∈ known) then Some (lit "abcdef") else None;
  lint := λ _ _ _, inr result;
  emit := λ _ _ d, (inr tt, d)
|}.

(** The demo environment with a type checker that reports a fault. *)
Definition demoEnvIllTyped : Env := {|
  cwd := ["r"];
  CompilerOptions := unit;
  Host := unit;
  Program := unit;
  Diagnostic := unit;
  readConfiguration := λ _ _ _,
    inr (mkParsed [["r"; "src"; "a.ts"]] tt, mkNgOptions [] false false);
  createCompilerHost := λ _, tt;
  createProgram := λ _ _ _ _ _, tt;
  getOptionsDiagnostics := λ _, [];
  typeCheck := λ _ _, inl (Fault "TS2322");
  getSourceFile := λ _ _, Some (lit "abcdef");
  lint := λ _ _ _, inr demoResult;
  emit := λ _ _ d, (inr tt, d)
|}.

(** What handling a file logs when there is nothing to write: the
    linter call, and the linter's output if it counted a failure. *)
Definition lintReport (file : abspath) (result : LintResult) : list event :=
  Lint file :: (if decide (0 < failureCount result)
                then [LogOutput (output result)] else []).

Definition lintLog (E : Env) (program : Program E) (files : list abspath)
  : list event :=
  files ≫= λ file,
    match getSourceFile E program file with
    | Some source =>
        match lint E file source program with
        | inr result => lintReport file result
        | inl _ => []
        end
    | None => []
    end.

(** The text [main] writes for [file] (lines 79-103): the patched
    source, when the program knows the file, the linter counts a
    failure and at least one replacement was collected. *)
Definition patchedText (E : Env) (program : Program E) (file : abspath)
  : option str :=
  match getSourceFile E program file with
  | Some source =>
      match lint E file source program with
      | inr result =>
          if decide (0 < failureCount result) then
            if decide (0 < length (collectReplacements (failures result)))%nat
            then Some (patch source (collectReplacements (failures result)))
            else None
          else None
      | inl _ => None
      end
  | None => None
  end.

(** The program knows [file] and the linter answers for it. *)
Definition linted (E : Env) (program : Program E) (file : abspath) : Prop :=
  ∃ source result,
    getSourceFile E program file = Some source ∧
    lint E file source program = inr result.

(** Nothing stands in the way of a copy at [rel] under [root]: no
    regular file at one of the directories above it, and no directory
    at its own place. *)
Definition clearFor (root : abspath) (d : gmap (list string) node)
    (rel : list string) : Prop :=
  (∀ k data, (1 ≤ k < length rel)%nat →
             d !! (root ++ take k rel) ≠ Some (File data)) ∧
  d !! (root ++ rel) ≠ Some Dir.

(** The two emitter calls, and the ways a run can end with them. *)
Definition notEmit (e : event) : Prop := e ≠ EmitPrimary ∧ e ≠ EmitMetadata.

Definition emitTail (t : list event) : Prop :=
  t = [] ∨ t = [EmitPrimary] ∨ t = [EmitPrimary; EmitMetadata].


(** * Properties *)

(** ** Collecting the replacements *)

Lemma foldl_accumulate (acc : list Replacement) (found : list RuleFailure) :
  foldl accumulate acc found = acc ++ concat (firstFixReplacements <$> found).
Proof.
  revert acc. induction found as [|f found IH]; intros acc; simpl.
  - by rewrite app_nil_r.
  - rewrite IH. unfold accumulate, firstFixReplacements.
    destruct (getFixes f) as [|fx more]; simpl; [done|].
    by rewrite app_assoc.
Qed.

(** C7. The replacements gathered for a file are the first fix's
    replacements of each finding, concatenated in finding order, with
    nothing for a finding without a fix and nothing removed; whatever
    fixes a finding lists after its first one have no influence. *)
Theorem collectReplacements_first_fix_only (found : list RuleFailure) :
  collectReplacements found = concat (firstFixReplacements <$> found) ∧
  collectReplacements ((λ f, mkFailure (take 1 (getFixes f))) <$> found)
    = collectReplacements found.
Proof.
  unfold collectReplacements. rewrite !foldl_accumulate. simpl.
  split; [done|]. f_equal. rewrite <- list_fmap_compose.
  apply list_fmap_ext. intros _ f _. simpl.
  unfold firstFixReplacements. simpl. by destruct (getFixes f).
Qed.

Example collect_three :
  collectReplacements
    [mkFailure [mkFix [mkReplacement 0 1 (lit "a"); mkReplacement 0 1 (lit "a")];
                mkFix [mkReplacement 7 8 (lit "z")]];
     mkFailure [];
     mkFailure [mkFix [mkReplacement 3 4 (lit "b")]]]
  = [mkReplacement 0 1 (lit "a"); mkReplacement 0 1 (lit "a");
     mkReplacement 3 4 (lit "b")].
Proof. reflexivity. Qed.

(** ** The sort of line 97 *)

Lemma insert_sorted_perm {A} (cmp : A → A → Z) x l :
  insert_sorted cmp x l ≡ₚ x :: l.
Proof.
  induction l as [|y l IH]; simpl; [done|].
  case_decide; [|done]. rewrite IH. apply Permutation_swap.
Qed.

Lemma sort_perm {A} (cmp : A → A → Z) l : sort cmp l ≡ₚ l.
Proof.
  induction l as [|x l IH]; simpl; [done|].
  rewrite insert_sorted_perm. by rewrite IH.
Qed.

#[local] Instance endsDrop_antisymm : AntiSymm (=) endsDrop.
Proof. intros a b. unfold endsDrop. lia. Qed.

Lemma insert_sorted_descends x l :
  StronglySorted endsDescend l →
  StronglySorted endsDescend (insert_sorted byEndDescending x l).
Proof.
  induction 1 as [|y l Hl IH Hy]; simpl.
  - repeat constructor.
  - unfold byEndDescending at 1. case_decide.
    + constructor; [done|]. rewrite insert_sorted_perm.
      constructor; [unfold endsDescend; lia | done].
    + constructor; [by constructor|].
      constructor; [unfold endsDescend; lia|].
      eapply Forall_impl; [exact Hy|]. unfold endsDescend. intros; lia.
Qed.

Lemma sort_descends rs : StronglySorted endsDescend (sort byEndDescending rs).
Proof.
  induction rs as [|r rs IH]; simpl; [constructor|].
  by apply insert_sorted_descends.
Qed.

Lemma descends_distinct_drop l :
  StronglySorted endsDescend l → NoDup (endPosition <$> l) →
  StronglySorted endsDrop l.
Proof.
  induction 1 as [|y l Hl IH Hy]; simpl; [constructor|].
  rewrite NoDup_cons. intros [Hin Hnd]. constructor; [by apply IH|].
  rewrite Forall_forall in Hy. apply Forall_forall. intros z Hz.
  specialize (Hy z Hz). unfold endsDescend in Hy. unfold endsDrop.
  assert (endPosition z ≠ endPosition y); [|lia].
  intros Heq. apply Hin. rewrite <- Heq. by apply list_elem_of_fmap_2.
Qed.

Lemma sort_drops rs :
  NoDup (endPosition <$> rs) → StronglySorted endsDrop (sort byEndDescending rs).
Proof.
  intros Hnd. apply descends_distinct_drop; [apply sort_descends|].
  by rewrite sort_perm.
Qed.

(** With pairwise distinct end positions the sorted array does not
    depend on the order the replacements came in. *)
Lemma sort_order_independent rs1 rs2 :
  rs1 ≡ₚ rs2 → NoDup (endPosition <$> rs1) →
  sort byEndDescending rs1 = sort byEndDescending rs2.
Proof.
  intros Hp Hnd. apply (StronglySorted_unique endsDrop).
  - by apply sort_drops.
  - apply sort_drops. by rewrite <- Hp.
  - by rewrite !sort_perm.
Qed.

(** C2, amended. For replacements whose end positions are pairwise
    distinct, the patched text is the same whatever order the
    replacements were collected in. *)
Theorem patch_order_independent (source : str) (rs1 rs2 : list Replacement) :
  rs1 ≡ₚ rs2 → NoDup (endPosition <$> rs1) →
  patch source rs1 = patch source rs2.
Proof.
  intros Hp Hnd. unfold patch. by rewrite (sort_order_independent rs1 rs2).
Qed.

Lemma patch_order_independent_witness :
  patch (lit "abcdef") [mkReplacement 0 1 (lit "XX"); mkReplacement 3 4 (lit "YY")]
  = patch (lit "abcdef") [mkReplacement 3 4 (lit "YY"); mkReplacement 0 1 (lit "XX")].
Proof.
  apply patch_order_independent.
  - apply Permutation_swap.
  - simpl. apply (bool_decide_unpack (NoDup [1; 4])). vm_compute. reflexivity.
Defined.

(** C2, as stated, fails on a tie: an insertion at offset 2 and a
    replacement of [1,2) do not overlap and both end at 2; the sort
    leaves them in the order they arrived, and the two arrival orders
    give different texts. *)
Lemma patch_tie_depends_on_order :
  ¬ (∀ (source : str) (rs1 rs2 : list Replacement),
       Forall (rangeValid source) rs1 → nonOverlapping rs1 → rs1 ≡ₚ rs2 →
       patch source rs1 = patch source rs2).
Proof.
  intros H.
  specialize (H (lit "abcdef")
    [mkReplacement 2 2 (lit "A"); mkReplacement 1 2 (lit "B")]
    [mkReplacement 1 2 (lit "B"); mkReplacement 2 2 (lit "A")]).
  assert (patch (lit "abcdef")
            [mkReplacement 2 2 (lit "A"); mkReplacement 1 2 (lit "B")]
          = lit "aBcdef") as E1 by (vm_compute; reflexivity).
  assert (patch (lit "abcdef")
            [mkReplacement 1 2 (lit "B"); mkReplacement 2 2 (lit "A")]
          = lit "aBAcdef") as E2 by (vm_compute; reflexivity).
  rewrite E1, E2 in H. 
  assert (lit "aBcdef" = lit "aBAcdef") as Habs; [|discriminate Habs].
  apply H.
  - repeat (apply Forall_cons; split; [unfold rangeValid; vm_compute; intuition discriminate|]).
    apply Forall_nil_2.
  - simpl. split; [|by split]. apply Forall_cons; split; [|apply Forall_nil_2].
    unfold disjoint. simpl. lia.
  - apply Permutation_swap.
Qed.

(** ** What the patch loop computes *)

Lemma substring_head (s : str) (b : Z) :
  substring s 0 b = take (Z.to_nat b) s.
Proof.
  unfold substring.
  assert (clamp (length s) 0 = 0%nat) as -> by (unfold clamp; lia).
  rewrite Nat.min_0_l, Nat.max_0_l, Nat.sub_0_r, drop_0. unfold clamp.
  destruct (decide (Z.to_nat b ≤ length s)%nat).
  - by rewrite Nat.min_l.
  - rewrite Nat.min_r by lia. rewrite !take_ge; [done|lia|lia].
Qed.

Lemma substring_from_drop (s : str) (a : Z) :
  substring_from s a = drop (Z.to_nat a) s.
Proof.
  unfold substring_from, clamp.
  destruct (decide (Z.to_nat a ≤ length s)%nat).
  - by rewrite Nat.min_l.
  - rewrite Nat.min_r by lia. rewrite !drop_ge; [done|lia|lia].
Qed.

Lemma applyReplacement_eq (source newSource : str) (r : Replacement) :
  applyReplacement source newSource r
  = take (Z.to_nat (startPosition r)) newSource ++ text r ++
    drop (Z.to_nat (endPosition r)) source.
Proof. unfold applyReplacement. by rewrite substring_head, substring_from_drop. Qed.

(** Each round cuts the buffer at its own start and glues the tail of
    the untouched source behind it: what earlier rounds wrote beyond
    that start is gone. *)
Lemma foldl_apply_descending (source : str) (l : list Replacement) :
  ∀ (buffer : str) (m : nat),
    (m ≤ length source)%nat → take m buffer = take m source →
    startsDescend m l →
    foldl (applyReplacement source) buffer l =
      match last l with
      | None => buffer
      | Some r => take (Z.to_nat (startPosition r)) source ++ text r ++
                  drop (Z.to_nat (endPosition r)) source
      end.
Proof.
  induction l as [|r l IH]; intros buffer m Hm Hbuf Hl; [done|].
  destruct Hl as [Hr Hl]. simpl foldl.
  set (s := Z.to_nat (startPosition r)) in *.
  assert (take s buffer = take s source) as Hs.
  { apply (f_equal (take s)) in Hbuf.
    by rewrite !take_take, !Nat.min_l in Hbuf by lia. }
  rewrite applyReplacement_eq. fold s. rewrite Hs.
  rewrite (IH _ s); [|lia| |done].
  - rewrite (last_cons r l). by destruct (last l).
  - rewrite take_app_le by (rewrite length_take; lia).
    by rewrite take_take, Nat.min_id.
Qed.

Lemma nonOverlapping_perm (l l' : list Replacement) :
  l ≡ₚ l' → nonOverlapping l → nonOverlapping l'.
Proof.
  induction 1 as [|x l l' Hp IH|x y l|l l' l'' _ IH1 _ IH2]; simpl.
  - done.
  - intros [Hx Hl]. split; [by rewrite <- Hp | by apply IH].
  - intros [Hy [Hx Hl]]. apply Forall_cons in Hy as [Hyx Hy].
    split; [|by split]. apply Forall_cons. split; [|done].
    unfold disjoint in *. lia.
  - auto.
Qed.

Lemma drops_startsDescend (source : str) (l : list Replacement) :
  ∀ m, Forall (λ r, (Z.to_nat (startPosition r) ≤ m)%nat) l →
       Forall (rangeValid source) l → nonOverlapping l →
       StronglySorted endsDrop l → startsDescend m l.
Proof.
  induction l as [|r l IH]; intros m Hm Hv Hd Hs; [done|].
  apply Forall_cons in Hm as [Hrm _]. apply Forall_cons in Hv as [Hr Hv].
  destruct Hd as [Hrd Hd]. apply StronglySorted_inv in Hs as [Hs Hrs].
  split; [done|]. apply IH; [|done..].
  rewrite Forall_forall in *. intros x Hx.
  specialize (Hv x Hx). specialize (Hrd x Hx). specialize (Hrs x Hx).
  unfold rangeValid, disjoint, endsDrop in *. lia.
Qed.

(** X2. With two or more valid, disjoint replacements the loop keeps
    only the one that ends lowest; every other one is overwritten by
    the tail taken from [source]. *)
Lemma patch_keeps_lowest_only (source : str) (rs : list Replacement) :
  Forall (rangeValid source) rs → nonOverlapping rs →
  NoDup (endPosition <$> rs) →
  patch source rs =
    match last (sort byEndDescending rs) with
    | None => source
    | Some r => take (Z.to_nat (startPosition r)) source ++ text r ++
                drop (Z.to_nat (endPosition r)) source
    end.
Proof.
  intros Hv Hd Hnd. unfold patch.
  apply (foldl_apply_descending source _ source (length source)); [done|done|].
  assert (sort byEndDescending rs ≡ₚ rs) as Hp by apply sort_perm.
  apply (drops_startsDescend source).
  - rewrite Hp. eapply Forall_impl; [exact Hv|].
    unfold rangeValid. intros; lia.
  - by rewrite Hp.
  - eapply nonOverlapping_perm; [symmetry; exact Hp | done].
  - by apply sort_drops.
Qed.

(** C1. On ["abcdef"] with the valid, disjoint replacements
    [0,1) -> "XX" and [3,4) -> "YY" the loop returns ["XXbcdef"]: the
    range [3,4) still holds its original character, and the length is 7
    where the formula of the specification gives 8. *)
Theorem patch_loses_a_replacement :
  let source := lit "abcdef" in
  let rs := [mkReplacement 0 1 (lit "XX"); mkReplacement 3 4 (lit "YY")] in
  Forall (rangeValid source) rs ∧ nonOverlapping rs ∧
  patch source rs = lit "XXbcdef" ∧
  Z.of_nat (length (patch source rs)) = 7 ∧
  promisedLength source rs = 8.
Proof.
  simpl. split; [|split; [|split; [|split]]].
  - repeat (apply Forall_cons; split;
            [unfold rangeValid; vm_compute; intuition discriminate|]).
    apply Forall_nil_2.
  - split; [|by split]. apply Forall_cons; split; [|apply Forall_nil_2].
    unfold disjoint. simpl. lia.
  - vm_compute. reflexivity.
  - vm_compute. reflexivity.
  - vm_compute. reflexivity.
Qed.

(** ** The monad *)

Lemma bind_Ok {A B} (m : M A) (k : A → M B) w a w' :
  m w = (Ok a, w') → (m ≫= k) w = k a w'.
Proof. intros H. unfold mbind, M_bind. by rewrite H. Qed.

Lemma bind_Ok_inv {A B} (m : M A) (k : A → M B) w b w2 :
  (m ≫= k) w = (Ok b, w2) → ∃ a w1, m w = (Ok a, w1) ∧ k a w1 = (Ok b, w2).
Proof.
  unfold mbind, M_bind. destruct (m w) as [[a| |] w1]; [eauto|done|done].
Qed.

(** ** Paths *)

Lemma resolve_app base l1 l2 :
  resolve base (l1 ++ l2) = resolve (resolve base l1) l2.
Proof.
  revert base. induction l1 as [|s l1 IH]; intros base; simpl; [done|].
  by case_decide.
Qed.

Lemma resolve_plain base l : ".." ∉ l → resolve base l = base ++ l.
Proof.
  revert base. induction l as [|s l IH]; intros base Hl; simpl.
  - by rewrite app_nil_r.
  - apply not_elem_of_cons in Hl as [Hs Hl].
    rewrite decide_False by done. rewrite IH by done.
    by rewrite <- app_assoc.
Qed.

Lemma removelast_snoc {A} (l : list A) x : removelast (l ++ [x]) = l.
Proof. by rewrite removelast_app, app_nil_r. Qed.

Lemma removelast_length {A} (l : list A) :
  length (removelast l) = pred (length l).
Proof.
  destruct l as [|y l _] using rev_ind; [done|].
  rewrite removelast_snoc, length_app. simpl. lia.
Qed.

Lemma removelast_take {A} (l : list A) : removelast l = take (pred (length l)) l.
Proof.
  destruct l as [|y l _] using rev_ind; [done|].
  rewrite removelast_snoc, length_app. simpl.
  replace (pred (length l + 1)) with (length l) by lia.
  by rewrite take_app_length.
Qed.

Lemma not_elem_of_removelast {A} (x : A) l : x ∉ l → x ∉ removelast l.
Proof.
  rewrite removelast_take. intros Hx Hin. apply Hx.
  by eapply subseteq_take.
Qed.

(** ** [mkdirParent] *)

Lemma mkdirParent_step fuel baseDir dir w :
  mkdirParent (S fuel) baseDir dir w =
    if decide (dir = dot) then (Ok tt, w)
    else if exists_on (disk w) (join baseDir dir) then (Ok tt, w)
    else match mkdirParent fuel baseDir (dirname dir) w with
         | (Ok _, w') => mkdirSync (join baseDir dir) w'
         | (Throw e, w') => (Throw e, w')
         | (OutOfFuel, w') => (OutOfFuel, w')
         end.
Proof.
  simpl. case_decide; [done|].
  unfold mbind, M_bind, existsSync.
  by destruct (exists_on (disk w) (join baseDir dir)).
Qed.

Lemma mkdirSync_Ok_inv p w w1 :
  mkdirSync p w = (Ok tt, w1) →
  p ≠ [] ∧ disk w !! removelast p = Some Dir ∧ disk w !! p = None ∧
  w1 = mkWorld (<[p := Dir]> (disk w)) (log w ++ [Mkdir p]).
Proof.
  unfold mkdirSync. case_decide; [done|].
  destruct (disk w !! removelast p) as [[|data]|]; [|done|done].
  destruct (disk w !! p); [done|]. intros [= <-]. done.
Qed.

Lemma mkdirSync_no_timeout p w : (mkdirSync p w).1 ≠ OutOfFuel.
Proof.
  unfold mkdirSync. case_decide; [done|].
  destruct (disk w !! removelast p) as [[|data]|]; [|done|done].
  by destruct (disk w !! p).
Qed.

Lemma iter_dirname_absolute n dir :
  absolute (Nat.iter n dirname dir) = absolute dir.
Proof. induction n as [|n IH]; simpl; [done|]. exact IH. Qed.

Lemma reaches_dot_relative dir :
  (∃ n, Nat.iter n dirname dir = dot) ↔ absolute dir = false.
Proof.
  split.
  - intros [n Hn]. by rewrite <- (iter_dirname_absolute n), Hn.
  - intros Hrel. exists (length (segments dir)).
    destruct dir as [a segs]. simpl in *. subst a.
    induction segs as [|x segs IH] using rev_ind; [done|].
    rewrite length_app. simpl. rewrite Nat.add_1_r, Nat.iter_succ_r.
    unfold dirname at 2. simpl. by rewrite removelast_snoc.
Qed.

Lemma relative_segments_nonempty dir :
  absolute dir = false → dir ≠ dot → segments dir ≠ [].
Proof. destruct dir as [a segs]. simpl. intros -> Hd ->. by apply Hd. Qed.

Lemma mkdirParent_enough_fuel baseDir fuel :
  ∀ dir w, absolute dir = false → (length (segments dir) < fuel)%nat →
    mkdirParent fuel baseDir dir w
      = mkdirParent (S (length (segments dir))) baseDir dir w ∧
    (mkdirParent fuel baseDir dir w).1 ≠ OutOfFuel.
Proof.
  induction fuel as [|fuel IH]; intros dir w Hrel Hlen; [lia|].
  rewrite !mkdirParent_step.
  case_decide as Hdot; [done|].
  destruct (exists_on (disk w) (join baseDir dir)); [done|].
  pose proof (relative_segments_nonempty dir Hrel Hdot) as Hne.
  assert (length (segments (dirname dir)) = pred (length (segments dir))) as Hd
    by apply removelast_length.
  assert (length (segments dir) ≠ 0%nat) by by destruct (segments dir).
  destruct (IH (dirname dir) w) as [Heq Hok]; [done|lia|].
  replace (length (segments dir)) with (S (length (segments (dirname dir)))) by lia.
  rewrite <- Heq.
  destruct (mkdirParent fuel baseDir (dirname dir) w) as [[[]|e|] w']; simpl in *;
    [|done..].
  split; [done|]. apply mkdirSync_no_timeout.
Qed.

(** C10. For a directory path whose chain of parents reaches ['.'],
    [mkdirParent] comes back (returning or throwing) within a recursion
    depth of one call per segment plus the last one: every parent has
    one segment less than its child, any larger budget gives the same
    result, and the budget is never exhausted. *)
Theorem mkdirParent_terminates (baseDir : abspath) (dir : path) (w : world) :
  (∃ n, Nat.iter n dirname dir = dot) →
  (dir ≠ dot → (length (segments (dirname dir)) < length (segments dir))%nat) ∧
  ∀ fuel, (length (segments dir) < fuel)%nat →
    mkdirParent fuel baseDir dir w
      = mkdirParent (S (length (segments dir))) baseDir dir w ∧
    (mkdirParent fuel baseDir dir w).1 ≠ OutOfFuel.
Proof.
  rewrite reaches_dot_relative. intros Hrel. split.
  - intros Hdot. pose proof (relative_segments_nonempty dir Hrel Hdot).
    unfold dirname. simpl. rewrite removelast_length.
    destruct (segments dir); [done|simpl; lia].
  - intros fuel Hfuel. by apply mkdirParent_enough_fuel.
Qed.

(** Without that chain there need be no end: for the path ['/'] under
    a base that does not exist, every budget is used up. *)
Lemma mkdirParent_absolute_diverges (baseDir : abspath) (w : world) (fuel : nat) :
  disk w !! baseDir = None →
  (mkdirParent fuel baseDir (mkPath true []) w).1 = OutOfFuel.
Proof.
  intros Hb. induction fuel as [|fuel IH]; [done|].
  rewrite mkdirParent_step. rewrite decide_False by done.
  unfold join, exists_on. simpl. rewrite Hb.
  rewrite bool_decide_eq_false_2 by (by intros [? ?]).
  change (dirname (mkPath true [])) with (mkPath true []).
  by destruct (mkdirParent fuel baseDir (mkPath true []) w) as [[[]|e|] w'].
Qed.

Lemma mkdirParent_Ok_reached fuel baseDir dir w w1 :
  mkdirParent fuel baseDir dir w = (Ok tt, w1) →
  dir = dot ∨ exists_on (disk w1) (join baseDir dir) = true.
Proof.
  destruct fuel as [|fuel]; [done|]. rewrite mkdirParent_step.
  case_decide; [by left|]. right.
  destruct (exists_on (disk w) (join baseDir dir)) eqn:Hex; [by simplify_eq|].
  destruct (mkdirParent fuel baseDir (dirname dir) w) as [[[]|e|] w']; [|done..].
  apply mkdirSync_Ok_inv in H0 as (_ & _ & _ & ->). simpl.
  unfold exists_on. apply bool_decide_eq_true_2. rewrite lookup_insert_eq. eauto.
Qed.

(** C4. Once a call of [mkdirParent] has returned, the same call made
    again returns as well and leaves the disk and the list of
    directory creations exactly as the first call left them. *)
Theorem mkdirParent_idempotent (fuel : nat) (baseDir : abspath) (dir : path)
    (w w1 : world) :
  mkdirParent fuel baseDir dir w = (Ok tt, w1) →
  mkdirParent fuel baseDir dir w1 = (Ok tt, w1).
Proof.
  intros Hrun. pose proof (mkdirParent_Ok_reached _ _ _ _ _ Hrun) as Hdone.
  destruct fuel as [|fuel]; [done|]. rewrite mkdirParent_step.
  case_decide; [done|]. destruct Hdone as [?| ->]; done.
Qed.

(** ** The disk stays a tree *)

Lemma exists_on_true d p : exists_on d p = true ↔ is_Some (d !! p).
Proof. unfold exists_on. apply bool_decide_eq_true. Qed.

Lemma exists_on_false d p : exists_on d p = false ↔ d !! p = None.
Proof.
  unfold exists_on. rewrite bool_decide_eq_false.
  by rewrite eq_None_not_Some.
Qed.

Lemma removelast_neq {A} (l : list A) : l ≠ [] → removelast l ≠ l.
Proof.
  intros Hl Heq. apply (f_equal length) in Heq.
  rewrite removelast_length in Heq. destruct l; simpl in *; [done|lia].
Qed.

Lemma wellFormed_mkdir d p :
  wellFormed d → p ≠ [] → d !! removelast p = Some Dir → d !! p = None →
  wellFormed (<[p := Dir]> d).
Proof.
  intros [Hroot Htree] Hp Hparent Hfree. split.
  - by rewrite lookup_insert_ne.
  - apply map_Forall_lookup. intros q x Hq.
    destruct (decide (q = [])) as [|Hne]; [by left|]. right.
    destruct (decide (p = q)) as [<-|Hpq].
    + rewrite lookup_insert_ne; [done|]. intros Heq. by apply (removelast_neq p).
    + rewrite lookup_insert_ne in Hq by done.
      destruct (map_Forall_lookup_1 _ _ _ _ Htree Hq) as [?|Hq']; [done|].
      rewrite lookup_insert_ne; [done|]. intros Heq. congruence.
Qed.

Lemma wellFormed_write d p data :
  wellFormed d → p ≠ [] → d !! removelast p = Some Dir → d !! p ≠ Some Dir →
  wellFormed (<[p := File data]> d).
Proof.
  intros [Hroot Htree] Hp Hparent Hnodir. split.
  - by rewrite lookup_insert_ne.
  - apply map_Forall_lookup. intros q x Hq.
    destruct (decide (q = [])) as [|Hne]; [by left|]. right.
    destruct (decide (p = q)) as [<-|Hpq].
    + rewrite lookup_insert_ne; [done|]. intros Heq. by apply (removelast_neq p).
    + rewrite lookup_insert_ne in Hq by done.
      destruct (map_Forall_lookup_1 _ _ _ _ Htree Hq) as [?|Hq']; [done|].
      rewrite lookup_insert_ne; [done|]. intros Heq. apply Hnodir.
      by rewrite Heq.
Qed.

Lemma wellFormed_prefix d a b :
  wellFormed d → is_Some (d !! (a ++ b)) → is_Some (d !! a).
Proof.
  intros [Hroot Htree]. induction b as [|x b IH] using rev_ind.
  - by rewrite app_nil_r.
  - intros [y Hy]. apply IH.
    destruct (map_Forall_lookup_1 _ _ _ _ Htree Hy) as [Hnil|Hparent].
    + by destruct a, b.
    + rewrite app_assoc, removelast_snoc in Hparent. eauto.
Qed.

(** ** What a returning [mkdirParent] has done *)

Lemma ancestor_dirname baseDir dir k :
  (k ≤ length (segments (dirname dir)))%nat →
  ancestor baseDir (dirname dir) k = ancestor baseDir dir k.
Proof.
  unfold ancestor, dirname. simpl. intros Hk. f_equal.
  rewrite removelast_take in *. rewrite take_take. f_equal.
  rewrite length_take in Hk. lia.
Qed.

Lemma ancestor_full baseDir dir :
  ".." ∉ segments dir →
  ancestor baseDir dir (length (segments dir)) = join baseDir dir.
Proof.
  intros Hplain. unfold ancestor, join.
  by rewrite resolve_plain, firstn_all.
Qed.

Lemma mkdirs_snoc baseDir dir j :
  (j ≤ length (segments (dirname dir)))%nat → segments dir ≠ [] →
  mkdirs baseDir (dirname dir) j (length (segments (dirname dir)))
    ++ [Mkdir (ancestor baseDir dir (length (segments dir)))]
  = mkdirs baseDir dir j (length (segments dir)).
Proof.
  intros Hj Hne. unfold mkdirs.
  assert (length (segments dir) = S (length (segments (dirname dir)))) as Hn.
  { unfold dirname. simpl. rewrite removelast_length.
    destruct (segments dir); simpl; [done|lia]. }
  rewrite Hn at 2. rewrite Nat.sub_succ_l by done.
  rewrite seq_S, fmap_app. simpl. f_equal.
  - apply list_fmap_ext. intros i k Hk. apply lookup_seq in Hk as [-> Hi].
    f_equal. apply ancestor_dirname.
    change (segments (dirname dir)) with (removelast (segments dir)) in *. lia.
  - do 3 f_equal.
    change (segments (dirname dir)) with (removelast (segments dir)) in *. lia.
Qed.

Lemma mkdirParent_post baseDir fuel :
  ∀ dir w w1,
    absolute dir = false → ".." ∉ segments dir → wellFormed (disk w) →
    mkdirParent fuel baseDir dir w = (Ok tt, w1) →
    wellFormed (disk w1) ∧
    (∃ j, (j ≤ length (segments dir))%nat ∧
          (j = 0%nat ∨ exists_on (disk w) (ancestor baseDir dir j) = true) ∧
          log w1 = log w ++ mkdirs baseDir dir j (length (segments dir))) ∧
    (∀ p, disk w1 !! p ≠ disk w !! p →
          disk w !! p = None ∧ disk w1 !! p = Some Dir ∧
          ∃ k, (1 ≤ k ≤ length (segments dir))%nat ∧ p = ancestor baseDir dir k).
Proof.
  induction fuel as [|fuel IH]; intros dir w w1 Hrel Hplain Hwf; [done|].
  rewrite mkdirParent_step. case_decide as Hdot.
  { intros [= <-]. subst dir. split; [done|]. split; [|done].
    exists 0%nat. split; [done|]. split; [by left|].
    unfold mkdirs. simpl. by rewrite app_nil_r. }
  pose proof (relative_segments_nonempty dir Hrel Hdot) as Hne.
  destruct (exists_on (disk w) (join baseDir dir)) eqn:Hex.
  { intros [= <-]. split; [done|]. split; [|done].
    exists (length (segments dir)). split; [done|]. split.
    - right. by rewrite ancestor_full.
    - unfold mkdirs. rewrite Nat.sub_diag. simpl. by rewrite app_nil_r. }
  destruct (mkdirParent fuel baseDir (dirname dir) w) as [[[]|e|] w'] eqn:Hrec;
    [|done..].
  intros Hmk. apply mkdirSync_Ok_inv in Hmk as (Hp & Hparent & Hfree & ->).
  destruct (IH (dirname dir) w w' Hrel (not_elem_of_removelast _ _ Hplain) Hwf Hrec)
    as (Hwf' & (j & Hj & Hjex & Hlog) & Hframe).
  simpl. split; [by apply wellFormed_mkdir|]. split.
  - exists j. split.
    { unfold dirname in Hj. simpl in Hj. rewrite removelast_length in Hj. lia. }
    split.
    { destruct Hjex as [?|Hjex]; [by left|right].
      by rewrite <- ancestor_dirname. }
    rewrite Hlog, <- app_assoc. f_equal.
    rewrite <- (ancestor_full baseDir dir) by done. by apply mkdirs_snoc.
  - intros p Hchanged. destruct (decide (p = join baseDir dir)) as [->|Hpne].
    + apply exists_on_false in Hex. rewrite lookup_insert_eq.
      split; [done|]. split; [done|].
      exists (length (segments dir)). split.
      * destruct (segments dir); simpl; [done|lia].
      * by rewrite ancestor_full.
    + rewrite lookup_insert_ne in Hchanged by done.
      rewrite lookup_insert_ne by done.
      destruct (Hframe p Hchanged) as (Hnone & Hdir & k & Hk & ->).
      split; [done|]. split; [done|]. exists k.
      split; [|by rewrite ancestor_dirname by lia].
      unfold dirname in Hk. simpl in Hk. rewrite removelast_length in Hk. lia.
Qed.

Lemma mkdirParent_returns baseDir :
  ∀ n dir w,
    length (segments dir) = n →
    absolute dir = false → ".." ∉ segments dir → wellFormed (disk w) →
    disk w !! baseDir = Some Dir →
    (∀ k data, (1 ≤ k ≤ n)%nat →
               disk w !! ancestor baseDir dir k ≠ Some (File data)) →
    ∃ w1, mkdirParent (S n) baseDir dir w = (Ok tt, w1).
Proof.
  induction n as [|n IH]; intros dir w Hn Hrel Hplain Hwf Hbase Hnofile;
    rewrite mkdirParent_step; case_decide as Hdot; [by eauto| |by eauto|].
  { pose proof (relative_segments_nonempty dir Hrel Hdot).
    by destruct (segments dir). }
  destruct (exists_on (disk w) (join baseDir dir)) eqn:Hex; [by eauto|].
  pose proof (relative_segments_nonempty dir Hrel Hdot) as Hne.
  assert (length (segments (dirname dir)) = n) as Hn'.
  { unfold dirname. simpl. rewrite removelast_length. lia. }
  destruct (IH (dirname dir) w) as [w' Hrec]; [done|done| |done|done| |].
  { by apply not_elem_of_removelast. }
  { intros k data Hk. rewrite ancestor_dirname by lia. apply Hnofile. lia. }
  rewrite Hrec.
  destruct (mkdirParent_post baseDir (S n) (dirname dir) w w' Hrel
              (not_elem_of_removelast _ _ Hplain) Hwf Hrec)
    as (Hwf' & _ & Hframe).
  assert (join baseDir dir = ancestor baseDir dir (S n)) as Htarget.
  { by rewrite <- Hn, ancestor_full. }
  assert (removelast (join baseDir dir) = ancestor baseDir dir n) as Hparent.
  { unfold join. rewrite resolve_plain by done. unfold ancestor.
    destruct (segments dir) as [|x segs _] using rev_ind; [done|].
    rewrite length_app in Hn. simpl in Hn.
    rewrite app_assoc, removelast_snoc.
    rewrite take_app_length' by lia. done. }
  assert (disk w' !! join baseDir dir = None) as Hfree.
  { apply exists_on_false in Hex.
    destruct (decide (disk w' !! join baseDir dir = disk w !! join baseDir dir))
      as [->|Hchanged]; [done|].
    destruct (Hframe _ Hchanged) as (_ & _ & k & Hk & Heq).
    apply (f_equal length) in Heq. rewrite Htarget in Heq.
    unfold ancestor, dirname in Heq. simpl in Heq.
    rewrite !length_app, !length_take, removelast_length in Heq. lia. }
  assert (disk w' !! ancestor baseDir dir n = Some Dir) as Hdir.
  { destruct (decide (disk w' !! ancestor baseDir dir n
                      = disk w !! ancestor baseDir dir n)) as [Heq|Hchanged];
      [|by destruct (Hframe _ Hchanged) as (_ & ? & _)].
    destruct n as [|n].
    - rewrite Heq. unfold ancestor. by rewrite take_0, app_nil_r.
    - destruct (mkdirParent_Ok_reached _ _ _ _ _ Hrec) as [Hd|Hreached].
      { apply (f_equal (length ∘ segments)) in Hd. simpl in Hd.
        change (removelast (segments dir)) with (segments (dirname dir)) in Hd.
        lia. }
      rewrite <- ancestor_full, Hn', ancestor_dirname in Hreached;
        [|lia|by apply not_elem_of_removelast].
      apply exists_on_true in Hreached as [[|data] Hx]; [done|].
      exfalso. apply (Hnofile (S n) data); [lia|]. by rewrite <- Heq. }
  cbv beta iota. unfold mkdirSync. rewrite decide_False.
  - rewrite Hparent, Hdir, Hfree. eauto.
  - rewrite Htarget. unfold ancestor. intros Hnil.
    apply (f_equal length) in Hnil. rewrite length_app, length_take in Hnil.
    rewrite Hn in Hnil. simpl in Hnil. lia.
Qed.





Lemma demoWorld_wellFormed : wellFormed (disk demoWorld).
Proof.
  split; [reflexivity|]. simpl.
  apply map_Forall_insert_2; [by right|].
  apply map_Forall_insert_2; [by right|].
  apply map_Forall_insert_2; [by right|].
  apply map_Forall_insert_2; [by left|].
  apply map_Forall_empty.
Defined.

Lemma demoDir_plain : ".." ∉ segments demoDir.
Proof.
  simpl. rewrite !not_elem_of_cons. repeat split; [done..|].
  apply not_elem_of_nil.
Defined.

Lemma demoDir_not_dot : demoDir ≠ dot.
Proof. discriminate. Defined.




Example mkdirParent_demo_log :
  log (mkdirParent 5 ["r"] demoDir demoWorld).2
  = [Mkdir ["r"; "a"]; Mkdir ["r"; "a"; "b"]; Mkdir ["r"; "a"; "b"; "c"];
     Mkdir ["r"; "a"; "b"; "c"; "d"]].
Proof. vm_compute. reflexivity. Qed.

(** A path that steps back up is followed the way [path.join] resolves
    it: for [a/../b] only [r/b] is made, and [r/a] never exists. *)
Example mkdirParent_steps_back :
  mkdirParent 4 ["r"] (mkPath false ["a"; ".."; "b"]) demoWorld
  = (Ok tt, mkWorld (<[ ["r"; "b"] := Dir ]> (disk demoWorld)) [Mkdir ["r"; "b"]]) ∧
  disk (mkdirParent 4 ["r"] (mkPath false ["a"; ".."; "b"]) demoWorld).2
    !! ["r"; "a"] = None.
Proof. vm_compute. split; reflexivity. Qed.

Lemma mkdirParent_idempotent_witness :
  mkdirParent 5 ["r"] demoDir (mkdirParent 5 ["r"] demoDir demoWorld).2
  = (Ok tt, (mkdirParent 5 ["r"] demoDir demoWorld).2).
Proof.
  apply (mkdirParent_idempotent 5 ["r"] demoDir demoWorld).
  vm_compute. reflexivity.
Defined.

Lemma mkdirParent_terminates_witness :
  (mkdirParent 7 ["r"] demoDir demoWorld).1 ≠ OutOfFuel.
Proof.
  refine (proj2 (proj2 (mkdirParent_terminates ["r"] demoDir demoWorld _) 7%nat _)).
  - exists 4%nat. reflexivity.
  - simpl. lia.
Defined.

(** ** Stepping through a computation *)

Section Steps.

Context (P : gmap (list string) node → Prop) (Q : event → Prop).

Lemma steps_ret {A : Type} (a : A) : steps P Q (mret a).
Proof. intros w HP. split; [done|]. exists []. by rewrite app_nil_r. Qed.

Lemma steps_throw {A : Type} (e : error) : steps P Q (throw e : M A).
Proof. intros w HP. split; [done|]. exists []. by rewrite app_nil_r. Qed.

Lemma steps_bind {A B : Type} (m : M A) (k : A → M B) :
  steps P Q m → (∀ a, steps P Q (k a)) → steps P Q (m ≫= k).
Proof.
  intros Hm Hk w HP. destruct (Hm w HP) as (HP' & l & Hl & HQ).
  unfold mbind, M_bind. destruct (m w) as [[a|e|] w']; simpl in *;
    [|by eauto..].
  destruct (Hk a w' HP') as (HP'' & l' & Hl' & HQ'). split; [done|].
  exists (l ++ l'). rewrite Hl', Hl, app_assoc. split; [done|].
  by apply Forall_app.
Qed.

Lemma steps_bind_result {A B : Type} (R : A → Prop) (m : M A) (k : A → M B) :
  steps P Q m → (∀ w a w', m w = (Ok a, w') → R a) →
  (∀ a, R a → steps P Q (k a)) → steps P Q (m ≫= k).
Proof.
  intros Hm HR Hk w HP. destruct (Hm w HP) as (HP' & l & Hl & HQ).
  unfold mbind, M_bind. destruct (m w) as [[a|e|] w'] eqn:Hrun; simpl in *;
    [|by eauto..].
  destruct (Hk a (HR _ _ _ Hrun) w' HP') as (HP'' & l' & Hl' & HQ').
  split; [done|]. exists (l ++ l'). rewrite Hl', Hl, app_assoc.
  split; [done|]. by apply Forall_app.
Qed.

Lemma steps_record (e : event) : Q e → steps P Q (record e).
Proof. intros He w HP. split; [done|]. exists [e]. by repeat constructor. Qed.

Lemma steps_existsSync p : steps P Q (existsSync p).
Proof. intros w HP. split; [done|]. exists []. by rewrite app_nil_r. Qed.

Lemma steps_mkdirSync p :
  (∀ d, P d → p ≠ [] → d !! removelast p = Some Dir → d !! p = None →
        P (<[p := Dir]> d) ∧ Q (Mkdir p)) →
  steps P Q (mkdirSync p).
Proof.
  intros H w HP. unfold mkdirSync.
  assert (P (disk w) ∧ ∃ l, log w = log w ++ l ∧ Forall Q l) as Hsame.
  { split; [done|]. exists []. by rewrite app_nil_r. }
  case_decide as Hne; [done|].
  destruct (disk w !! removelast p) as [[|data]|] eqn:Hparent; [|done..].
  destruct (disk w !! p) eqn:Hp; [done|]. simpl.
  destruct (H _ HP Hne Hparent Hp) as [HP' HQ]. split; [done|].
  exists [Mkdir p]. by repeat constructor.
Qed.

Lemma steps_writeFileSync p data :
  (∀ d, P d → p ≠ [] → d !! removelast p = Some Dir → d !! p ≠ Some Dir →
        P (<[p := File data]> d) ∧ Q (WriteFile p data)) →
  steps P Q (writeFileSync p data).
Proof.
  intros H w HP. unfold writeFileSync.
  assert (P (disk w) ∧ ∃ l, log w = log w ++ l ∧ Forall Q l) as Hsame.
  { split; [done|]. exists []. by rewrite app_nil_r. }
  case_decide as Hne; [done|].
  destruct (disk w !! removelast p) as [[|?]|] eqn:Hparent; [|done..].
  assert (disk w !! p ≠ Some Dir →
          P (<[p := File data]> (disk w)) ∧
          ∃ l, log w ++ [WriteFile p data] = log w ++ l ∧ Forall Q l) as Hnew.
  { intros Hp. destruct (H _ HP Hne Hparent Hp) as [HP' HQ]. split; [done|].
    exists [WriteFile p data]. by repeat constructor. }
  destruct (disk w !! p) as [[|?]|]; [done|by apply Hnew..].
Qed.

Lemma steps_mkdirParent fuel baseDir dir :
  (∀ p d, P d → p ≠ [] → d !! removelast p = Some Dir → d !! p = None →
          P (<[p := Dir]> d) ∧ Q (Mkdir p)) →
  steps P Q (mkdirParent fuel baseDir dir).
Proof.
  intros H. revert dir. induction fuel as [|fuel IH]; intros dir.
  - intros w HP. split; [done|]. exists []. by rewrite app_nil_r.
  - simpl. case_decide; [apply steps_ret|].
    apply steps_bind; [apply steps_existsSync|]. intros [|]; [apply steps_ret|].
    apply steps_bind; [apply IH|]. intros _. apply steps_mkdirSync. apply H.
Qed.

Lemma steps_forOf {A : Type} (body : A → M unit) (xs : list A) :
  (∀ x, x ∈ xs → steps P Q (body x)) → steps P Q (forOf body xs).
Proof.
  induction xs as [|x xs IH]; intros H; simpl; [apply steps_ret|].
  apply steps_bind; [apply H; by left|]. intros _. apply IH.
  intros y Hy. apply H. by right.
Qed.

Lemma steps_processFile (E : Env) (base : abspath) (newProgram : Program E)
    (file : abspath) :
  Q (Lint file) → (∀ out, Q (LogOutput out)) → (∀ np, Q (LogCreatingFix np)) →
  (∀ p d, P d → p ≠ [] → d !! removelast p = Some Dir → d !! p = None →
          P (<[p := Dir]> d) ∧ Q (Mkdir p)) →
  (∀ source result,
     getSourceFile E newProgram file = Some source →
     lint E file source newProgram = inr result →
     0 < failureCount result →
     collectReplacements (failures result) ≠ [] →
     ∀ d, P d →
       d !! removelast (join base (relative (cwd E) file)) = Some Dir →
       d !! join base (relative (cwd E) file) ≠ Some Dir →
       P (<[join base (relative (cwd E) file) :=
              File (patch source (collectReplacements (failures result)))]> d) ∧
       Q (WriteFile (join base (relative (cwd E) file))
                    (patch source (collectReplacements (failures result))))) →
  steps P Q (processFile E base newProgram file).
Proof.
  intros HQlint HQout HQfix Hmkdir Hwrite. unfold processFile.
  apply (steps_bind_result (λ source, getSourceFile E newProgram file = Some source)).
  { unfold getFullText.
    destruct (getSourceFile E newProgram file); [apply steps_ret|apply steps_throw]. }
  { unfold getFullText. intros w a w'.
    destruct (getSourceFile E newProgram file); [|done].
    by intros [= -> _]. }
  intros source Hsource.
  apply (steps_bind_result (λ result, lint E file source newProgram = inr result)).
  { intros w HP. split; [done|]. exists [Lint file]. by repeat constructor. }
  { unfold linter_lint. intros w a w'.
    destruct (lint E file source newProgram); [done|]. by intros [= -> _]. }
  intros result Hresult. case_decide as Hcount; [|apply steps_ret].
  apply steps_bind; [by apply steps_record|]. intros _.
  case_decide as Hlen; [|apply steps_ret].
  apply steps_bind; [by apply steps_record|]. intros _.
  apply steps_bind; [by apply steps_mkdirParent|]. intros _.
  apply steps_writeFileSync. intros d Hd _. apply Hwrite; [done..| |done].
  intros Hnil. rewrite Hnil in Hlen. simpl in Hlen. lia.
Qed.

End Steps.

(** ** [main], phase by phase *)

Section MainFacts.

Context (E : Env).

Lemma configLoad_Ok_inv project base w cfg w0 :
  configLoad E project base w = (Ok cfg, w0) →
  w0 = mkWorld (disk w) (log w ++ [ReadConfiguration]).
Proof.
  unfold configLoad, mbind, M_bind, lstatSync_isFile, tsc_readConfiguration.
  destruct (disk w !! locate E project) as [[|data]|]; [| |done].
  - destruct (readConfiguration E _ _ _); [done|]. simpl. by intros [= _ <-].
  - destruct (readConfiguration E _ _ _); [done|]. simpl. by intros [= _ <-].
Qed.

(** C5. When the options diagnostics of the first program are not
    empty, [main] is rejected right after the query: the disk is as it
    was, and after the configuration was read only the first program
    construction and the diagnostics query were called - no codegen
    extension, no second program, no linter, no write, no emitter. *)
Theorem options_diagnostics_abort (project : path) (base : option path)
    (codegen : option (CodegenExtension E)) (w w0 : world)
    (cfg : ParsedCommandLine (CompilerOptions E) * NgOptions) :
  configLoad E project base w = (Ok cfg, w0) →
  getOptionsDiagnostics E (initialProgram E cfg.1 (disk w0)) ≠ [] →
  main E project base codegen w =
    (Throw OptionsDiagnosticError,
     mkWorld (disk w)
       (log w ++ [ReadConfiguration; CreateProgram false; GetOptionsDiagnostics])).
Proof.
  intros Hcfg Hdiags. pose proof (configLoad_Ok_inv _ _ _ _ _ Hcfg) as ->.
  unfold main. rewrite (bind_Ok _ _ _ _ _ Hcfg).
  unfold compile, mbind, M_bind, ts_createProgram, program_getOptionsDiagnostics.
  simpl. unfold initialProgram in Hdiags. simpl in Hdiags.
  destruct (getOptionsDiagnostics E _) as [|diag diags]; [done|]. simpl.
  by rewrite <- !app_assoc.
Qed.

Lemma bind_Throw {A B : Type} (m : M A) (k : A → M B) w e w' :
  m w = (Throw e, w') → (m ≫= k) w = (Throw e, w').
Proof. intros H. unfold mbind, M_bind. by rewrite H. Qed.

Lemma fixDir_eq : fixDir E = cwd E ++ ["fixes"].
Proof. reflexivity. Qed.




(** C9, amended. In a run of the analysis phase started in an
    existing working directory, [fixes] under it is a directory when the phase ends,
    however the files fare and whatever the linter reports - unless a
    regular file stood at that path, which [existsSync] takes for the
    directory: then nothing is made there and a regular file it stays.
    If nothing was at the path, the directory is made by the first call
    of the phase, ahead of every linter call, and it is not made
    again. *)
Theorem fixes_root_created_first (files : list abspath) (newProgram : Program E)
    (w : world) :
  disk w !! cwd E = Some Dir →
  ((∀ data, disk w !! fixDir E ≠ Some (File data)) →
   disk (analyzeAndPatch E files newProgram w).2 !! fixDir E = Some Dir) ∧
  (∀ data, disk w !! fixDir E = Some (File data) →
   ∃ data',
     disk (analyzeAndPatch E files newProgram w).2 !! fixDir E
       = Some (File data')) ∧
  ∃ rest,
    log (analyzeAndPatch E files newProgram w).2 =
      log w ++ (if exists_on (disk w) (fixDir E) then [] else [Mkdir (fixDir E)])
            ++ rest ∧
    Forall (λ e, e ≠ Mkdir (fixDir E)) rest.
Proof.
  intros Hcwd.
  assert (steps (λ d, d !! fixDir E = Some Dir) (λ e, e ≠ Mkdir (fixDir E))
            (forOf (processFile E (fixDir E) newProgram) files)) as Hdir.
  { apply steps_forOf. intros file _.
    apply steps_processFile; [done|done|done| |].
    - intros p d Hd _ _ Hp. split.
      + rewrite lookup_insert_ne; [done|]. intros ->. congruence.
      + intros [= ->]. congruence.
    - intros source result _ _ _ _ d Hd _ Hnodir. split; [|done].
      rewrite lookup_insert_ne; [done|]. intros Heq.
      apply Hnodir. by rewrite Heq. }
  assert (steps (λ d, ∃ data, d !! fixDir E = Some (File data))
            (λ e, e ≠ Mkdir (fixDir E))
            (forOf (processFile E (fixDir E) newProgram) files)) as Hfile.
  { apply steps_forOf. intros file _.
    apply steps_processFile; [done|done|done| |].
    - intros p d [data Hd] _ _ Hp. split.
      + exists data. rewrite lookup_insert_ne; [done|]. intros ->. congruence.
      + intros [= ->]. congruence.
    - intros source result _ _ _ _ d [data Hd] _ _. split; [|done].
      match goal with |- ∃ _, <[?p := _]> _ !! _ = _ =>
        destruct (decide (p = fixDir E)) as [->|Hne] end.
      + rewrite lookup_insert_eq. eauto.
      + exists data. by rewrite lookup_insert_ne. }
  unfold analyzeAndPatch.
  rewrite (bind_Ok (existsSync _) _ _ _ _ eq_refl).
  destruct (exists_on (disk w) (fixDir E)) eqn:Hex.
  - rewrite (bind_Ok (mret tt) _ _ _ _ eq_refl).
    apply exists_on_true in Hex as [[|data] Hx].
    + destruct (Hdir w Hx) as (Hdir' & rest & Hlog & Hrest).
      split; [done|]. split; [intros data Hdata; congruence|].
      exists rest. by split.
    + destruct (Hfile w) as (Hfile' & rest & Hlog & Hrest); [by eauto|].
      split; [intros Hnofile; by destruct (Hnofile data)|].
      split; [done|]. exists rest. by split.
  - apply exists_on_false in Hex.
    assert (mkdirSync (fixDir E) w
            = (Ok tt, mkWorld (<[fixDir E := Dir]> (disk w))
                              (log w ++ [Mkdir (fixDir E)]))) as Hmk.
    { assert (removelast (fixDir E) = cwd E) as Hparent
        by (rewrite fixDir_eq; apply removelast_snoc).
      assert (fixDir E ≠ []) as Hne by (rewrite fixDir_eq; by destruct (cwd E)).
      unfold mkdirSync. rewrite decide_False by done.
      by rewrite Hparent, Hcwd, Hex. }
    rewrite (bind_Ok _ _ _ _ _ Hmk).
    match goal with |- context [(_ ?w1).2] =>
      destruct (Hdir w1) as (Hdir' & rest & Hlog & Hrest) end.
    { simpl. by rewrite lookup_insert_eq. }
    split; [done|]. split; [intros data Hdata; congruence|].
    exists rest. split; [|done].
    rewrite Hlog. simpl. by rewrite <- app_assoc.
Qed.

End MainFacts.

Lemma options_diagnostics_abort_witness :
  main (demoEnv [tt] demoResult) dot None None demoWorld =
    (Throw OptionsDiagnosticError,
     mkWorld (disk demoWorld)
       [ReadConfiguration; CreateProgram false; GetOptionsDiagnostics]).
Proof.
  apply (options_diagnostics_abort (demoEnv [tt] demoResult) dot None None demoWorld
           (mkWorld (disk demoWorld) [ReadConfiguration])
           (mkParsed [["r"; "src"; "a.ts"]] tt, mkNgOptions ["r"] false false)).
  - vm_compute. reflexivity.
  - simpl. discriminate.
Defined.

(** ** The mirrored path *)

Lemma resolve_up base k :
  resolve base (replicate k "..") = take (length base - k) base.
Proof.
  revert base. induction k as [|k IH]; intros base; simpl.
  - by rewrite Nat.sub_0_r, firstn_all.
  - rewrite IH, removelast_take, take_take, length_take. f_equal. lia.
Qed.

Lemma mirrored_length pre from to x :
  ".." ∉ to →
  length (resolve (pre ++ from ++ [x]) (relative_segments from to))
  = S (length pre + length to).
Proof.
  revert pre to. induction from as [|f from IH]; intros pre to Hto.
  - assert (relative_segments [] to = to) as -> by by destruct to.
    rewrite resolve_plain by done. rewrite !length_app. simpl. lia.
  - assert (length (resolve (pre ++ (f :: from) ++ [x])
                      (replicate (length (f :: from)) ".." ++ to))
            = S (length pre + length to)) as Hclimb.
    { rewrite resolve_app, resolve_up, resolve_plain by done.
      rewrite length_app, length_take, !length_app. simpl.
      rewrite ?length_app. simpl. lia. }
    destruct to as [|t to]; [exact Hclimb|]. simpl relative_segments.
    case_decide as Heq; [|exact Hclimb]. subst t.
    apply not_elem_of_cons in Hto as [_ Hto].
    replace (pre ++ (f :: from) ++ [x]) with ((pre ++ [f]) ++ from ++ [x])
      by by rewrite <- app_assoc.
    rewrite IH by done. rewrite length_app. simpl. lia.
Qed.

Section Mirror.

Context (E : Env).

Lemma mirrored_neq (file : abspath) :
  ".." ∉ file → join (fixDir E) (relative (cwd E) file) ≠ file.
Proof.
  intros Hfile Heq. apply (f_equal length) in Heq.
  unfold join, relative in Heq. simpl in Heq. rewrite fixDir_eq in Heq.
  pose proof (mirrored_length [] (cwd E) file "fixes" Hfile) as Hlen.
  simpl in Hlen. lia.
Qed.

(** Handling one file changes nothing that was on the disk except, at
    most, the entry at the mirrored path, which is never the path of
    the file itself: the source file is as it was.  Every file write
    of the round goes to the mirrored path and carries the text the
    patch loop built from that file's source and collected
    replacements. *)
Lemma processFile_writes_mirror_only (newProgram : Program E) (file : abspath)
    (w : world) :
  ".." ∉ file →
  mirrored E file ≠ file ∧
  (is_Some (disk w !! file) →
   disk (processFile E (fixDir E) newProgram file w).2 !! file = disk w !! file) ∧
  (∀ p, p ≠ mirrored E file → is_Some (disk w !! p) →
        disk (processFile E (fixDir E) newProgram file w).2 !! p = disk w !! p) ∧
  ∃ l, log (processFile E (fixDir E) newProgram file w).2 = log w ++ l ∧
       Forall (λ e, ∀ p data, e = WriteFile p data →
                 p = mirrored E file ∧
                 ∃ source result,
                   getSourceFile E newProgram file = Some source ∧
                   lint E file source newProgram = inr result ∧
                   0 < failureCount result ∧
                   collectReplacements (failures result) ≠ [] ∧
                   data = patch source (collectReplacements (failures result))) l.
Proof.
  intros Hfile. pose proof (mirrored_neq file Hfile) as Hneq.
  unfold mirrored.
  set (target := join (fixDir E) (relative (cwd E) file)) in *.
  assert (steps
    (λ d, ∀ p, p ≠ target → is_Some (disk w !! p) → d !! p = disk w !! p)
    (λ e, ∀ p data, e = WriteFile p data →
            p = target ∧
            ∃ source result,
              getSourceFile E newProgram file = Some source ∧
              lint E file source newProgram = inr result ∧
              0 < failureCount result ∧
              collectReplacements (failures result) ≠ [] ∧
              data = patch source (collectReplacements (failures result)))
    (processFile E (fixDir E) newProgram file)) as Hsteps.
  { apply steps_processFile; [done|done|done| |].
    - intros p d Hd _ _ Hp. split; [|done]. intros q Hq Hsome.
      destruct (decide (p = q)) as [->|Hpq].
      + rewrite <- (Hd q Hq Hsome), Hp in Hsome. by destruct Hsome.
      + rewrite lookup_insert_ne by done. by apply Hd.
    - intros source result Hsource Hresult Hcount Hrs d Hd. split.
      + intros q Hq Hsome. rewrite lookup_insert_ne by done. by apply Hd.
      + intros p data [= <- <-]. split; [done|]. by exists source, result. }
  destruct (Hsteps w) as (Hframe & l & Hlog & Hwrites); [done|].
  split; [done|]. split; [by apply Hframe|]. split; [exact Hframe|].
  by exists l.
Qed.

(** X9. Over the whole loop, whatever was on the disk stays as it was
    unless it lies at the mirrored path of a listed file; the mirrored
    path of a file is never that file's own path; and every file write
    goes to the mirrored path of a listed file and carries the text
    patched from that file's source and collected replacements. *)
Lemma analyzeAndPatch_writes_mirrors_only (files : list abspath)
    (newProgram : Program E) (w : world) :
  Forall (λ f, ".." ∉ f) files →
  (∀ f, f ∈ files → mirrored E f ≠ f) ∧
  (∀ p, is_Some (disk w !! p) → (∀ f, f ∈ files → p ≠ mirrored E f) →
        disk (analyzeAndPatch E files newProgram w).2 !! p = disk w !! p) ∧
  ∃ l, log (analyzeAndPatch E files newProgram w).2 = log w ++ l ∧
       Forall (λ e, ∀ p data, e = WriteFile p data →
                 ∃ f source result,
                   f ∈ files ∧ p = mirrored E f ∧
                   getSourceFile E newProgram f = Some source ∧
                   lint E f source newProgram = inr result ∧
                   0 < failureCount result ∧
                   collectReplacements (failures result) ≠ [] ∧
                   data = patch source (collectReplacements (failures result))) l.
Proof.
  intros Hplain. rewrite Forall_forall in Hplain.
  split; [intros f Hf; apply mirrored_neq; by apply Hplain|].
  set (P := λ d : gmap (list string) node,
         ∀ p, is_Some (disk w !! p) → (∀ f, f ∈ files → p ≠ mirrored E f) →
              d !! p = disk w !! p).
  set (Q := λ e, ∀ p data, e = WriteFile p data →
         ∃ f source result,
           f ∈ files ∧ p = mirrored E f ∧
           getSourceFile E newProgram f = Some source ∧
           lint E f source newProgram = inr result ∧
           0 < failureCount result ∧
           collectReplacements (failures result) ≠ [] ∧
           data = patch source (collectReplacements (failures result))).
  assert (∀ p d, P d → d !! p = None → P (<[p := Dir]> d)) as Hmkdir.
  { intros p d Hd Hp q Hq Hfree.
    destruct (decide (p = q)) as [->|Hpq].
    - rewrite <- (Hd q Hq Hfree), Hp in Hq. by destruct Hq.
    - rewrite lookup_insert_ne by done. by apply Hd. }
  assert (steps P Q (analyzeAndPatch E files newProgram)) as Hsteps.
  { unfold analyzeAndPatch.
    apply steps_bind; [apply steps_existsSync|]. intros found.
    apply steps_bind.
    { destruct found; [apply steps_ret|]. apply steps_mkdirSync.
      intros d Hd _ _ Hfree. split; [by apply Hmkdir|done]. }
    intros _. apply steps_forOf. intros file Hfile.
    apply steps_processFile; [done|done|done| |].
    - intros p d Hd _ _ Hfree. split; [by apply Hmkdir|done].
    - intros source result Hsource Hresult Hcount Hrs d Hd. split.
      + intros q Hq Hfree. rewrite lookup_insert_ne; [by apply Hd|].
        intros Heq. by apply (Hfree file Hfile).
      + intros p data [= <- <-]. by exists file, source, result. }
  destruct (Hsteps w) as (Hframe & l & Hlog & Hwrites); [done|].
  split; [exact Hframe|]. by exists l.
Qed.

Lemma relative_below (from rel : abspath) :
  relative_segments from (from ++ rel) = rel.
Proof.
  induction from as [|f from IH]; simpl; [by destruct rel|].
  by rewrite decide_True.
Qed.

Lemma processFile_fixable_run (newProgram : Program E) (rel : abspath)
    (source : str) (result : LintResult) (w : world) :
  getSourceFile E newProgram (cwd E ++ rel) = Some source →
  lint E (cwd E ++ rel) source newProgram = inr result →
  0 < failureCount result →
  collectReplacements (failures result) ≠ [] →
  rel ≠ [] → ".." ∉ rel →
  wellFormed (disk w) → disk w !! fixDir E = Some Dir →
  (∀ k data, (1 ≤ k < length rel)%nat →
             disk w !! (fixDir E ++ take k rel) ≠ Some (File data)) →
  disk w !! (fixDir E ++ rel) ≠ Some Dir →
  ∃ w1,
    processFile E (fixDir E) newProgram (cwd E ++ rel) w = (Ok tt, w1) ∧
    wellFormed (disk w1) ∧
    disk w1 !! (fixDir E ++ rel)
      = Some (File (patch source (collectReplacements (failures result)))) ∧
    last (log w1)
      = Some (WriteFile (fixDir E ++ rel)
                (patch source (collectReplacements (failures result)))) ∧
    (∀ p, p ≠ fixDir E ++ rel → disk w1 !! p ≠ disk w !! p →
          disk w !! p = None ∧ disk w1 !! p = Some Dir ∧
          ∃ k, (1 ≤ k < length rel)%nat ∧ p = fixDir E ++ take k rel).
Proof.
  intros Hsource Hresult Hcount Hrs Hrel Hplain Hwf Hfix Hnofile Hnodir.
  set (data := patch source (collectReplacements (failures result))).
  set (dir := mkPath false (removelast rel)).
  assert (length (removelast rel) < length rel)%nat as Hshort.
  { rewrite removelast_length. destruct rel; simpl; [done|lia]. }
  assert (".." ∉ segments dir) as Hdirplain by by apply not_elem_of_removelast.
  assert (∀ k, (k ≤ length (removelast rel))%nat →
               ancestor (fixDir E) dir k = fixDir E ++ take k rel) as Hanc.
  { intros k Hk. unfold ancestor, dir. simpl. f_equal.
    rewrite removelast_take, take_take. f_equal.
    rewrite removelast_length in Hk. lia. }
  assert (removelast (fixDir E ++ rel) = join (fixDir E) dir) as Hparent.
  { unfold join, dir. simpl. rewrite resolve_plain by done.
    destruct rel as [|x rel' _] using rev_ind; [done|].
    by rewrite app_assoc, !removelast_snoc. }
  unfold processFile.
  rewrite (bind_Ok (getFullText E newProgram _) _ w source w)
    by (unfold getFullText; by rewrite Hsource).
  rewrite (bind_Ok (linter_lint E _ source newProgram) _ w result
             (mkWorld (disk w) (log w ++ [Lint (cwd E ++ rel)])))
    by (unfold linter_lint; by rewrite Hresult).
  rewrite decide_True by done.
  rewrite (bind_Ok (record _) _ _ tt _ eq_refl).
  rewrite decide_True
    by (destruct (collectReplacements (failures result)); simpl; [done|lia]).
  rewrite (bind_Ok (record _) _ _ tt _ eq_refl).
  unfold relative. rewrite relative_below.
  change (dirname (mkPath false rel)) with dir.
  match goal with |- context [(mkdirParent _ _ _ ≫= _) ?w0] => set (w2 := w0) end.
  destruct (mkdirParent_returns (fixDir E) _ dir w2 eq_refl eq_refl Hdirplain Hwf Hfix)
    as [w3 Hmk].
  { intros k data' Hk. simpl in Hk. rewrite Hanc by lia. apply Hnofile. lia. }
  rewrite (bind_Ok _ _ _ _ _ Hmk).
  destruct (mkdirParent_post (fixDir E) _ dir w2 w3 eq_refl Hdirplain Hwf Hmk)
    as (Hwf3 & _ & Hframe).
  assert (disk w3 !! join (fixDir E) dir = Some Dir) as Hdir.
  { destruct (decide (disk w3 !! join (fixDir E) dir = disk w !! join (fixDir E) dir))
      as [Heq|Hchanged]; [|by destruct (Hframe _ Hchanged) as (_ & ? & _)].
    destruct (mkdirParent_Ok_reached _ _ _ _ _ Hmk) as [Hd|Hreached].
    - rewrite Heq, Hd. unfold join. simpl. done.
    - apply exists_on_true in Hreached. rewrite Heq in Hreached.
      rewrite Heq. destruct Hreached as [[|data'] Hx]; [done|]. exfalso.
      rewrite <- ancestor_full in Hx by done. simpl in Hx.
      rewrite Hanc in Hx by done.
      destruct (decide (1 ≤ length (removelast rel))%nat) as [Hge|Hlt].
      + by apply (Hnofile (length (removelast rel)) data'); [lia|].
      + assert (length (removelast rel) = 0%nat) as Hz by lia.
        rewrite Hz, take_0, app_nil_r in Hx. congruence. }
  assert (disk w3 !! (fixDir E ++ rel) = disk w !! (fixDir E ++ rel)) as Hsame.
  { destruct (decide (disk w3 !! (fixDir E ++ rel) = disk w !! (fixDir E ++ rel)))
      as [Heq|Hchanged]; [done|].
    destruct (Hframe _ Hchanged) as (_ & _ & k & Hk & Heq). simpl in Hk.
    apply (f_equal length) in Heq. unfold ancestor in Heq. simpl in Heq.
    rewrite !length_app, length_take in Heq. lia. }
  assert (join (fixDir E) (mkPath false rel) = fixDir E ++ rel) as Htarget
    by (unfold join; simpl; by rewrite resolve_plain).
  assert (fixDir E ++ rel ≠ []) as Hnonempty
    by (rewrite fixDir_eq; by destruct (cwd E)).
  assert (wellFormed (<[fixDir E ++ rel := File data]> (disk w3))) as Hwf1.
  { apply wellFormed_write; [done|done|by rewrite Hparent|by rewrite Hsame]. }
  assert (∀ p, p ≠ fixDir E ++ rel →
               <[fixDir E ++ rel := File data]> (disk w3) !! p ≠ disk w !! p →
               disk w !! p = None ∧
               <[fixDir E ++ rel := File data]> (disk w3) !! p = Some Dir ∧
               ∃ k, (1 ≤ k < length rel)%nat ∧ p = fixDir E ++ take k rel)
    as Hout.
  { intros p Hp. rewrite lookup_insert_ne by done. intros Hchanged.
    destruct (Hframe _ Hchanged) as (Hnone & Hnew & k & Hk & ->).
    simpl in Hk. split; [done|]. split; [done|]. exists k.
    split; [lia|]. apply Hanc. lia. }
  rewrite Htarget. unfold writeFileSync.
  rewrite decide_False by done.
  rewrite Hparent, Hdir, Hsame.
  destruct (disk w !! (fixDir E ++ rel)) as [[|old]|]; [done| |]; eexists;
    (split; [reflexivity|]); simpl; rewrite lookup_insert_eq, last_snoc; done.
Qed.


(** X8. For a file below the working directory, on a disk where the
    [fixes] directory exists and nothing stands in the way, the step
    does write: the mirrored path then holds the patched text. *)
Lemma processFile_writes_patched (newProgram : Program E) (rel : abspath)
    (source : str) (result : LintResult) (w : world) :
  getSourceFile E newProgram (cwd E ++ rel) = Some source →
  lint E (cwd E ++ rel) source newProgram = inr result →
  0 < failureCount result →
  collectReplacements (failures result) ≠ [] →
  rel ≠ [] → ".." ∉ rel →
  wellFormed (disk w) → disk w !! fixDir E = Some Dir →
  (∀ k data, (1 ≤ k < length rel)%nat →
             disk w !! (fixDir E ++ take k rel) ≠ Some (File data)) →
  disk w !! (fixDir E ++ rel) ≠ Some Dir →
  ∃ w1,
    processFile E (fixDir E) newProgram (cwd E ++ rel) w = (Ok tt, w1) ∧
    disk w1 !! (fixDir E ++ rel)
      = Some (File (patch source (collectReplacements (failures result)))) ∧
    last (log w1)
      = Some (WriteFile (fixDir E ++ rel)
                (patch source (collectReplacements (failures result)))).
Proof.
  intros Hsource Hresult Hcount Hrs Hrel Hplain Hwf Hfix Hnofile Hnodir.
  destruct (processFile_fixable_run newProgram rel source result w)
    as (w1 & Hrun & _ & Hdisk & Hlast & _); [done..|].
  by exists w1.
Qed.

End Mirror.

Lemma demoFile_plain : ".." ∉ ["r"; "src"; "a.ts"].
Proof.
  rewrite !not_elem_of_cons. repeat split; [done..|]. apply not_elem_of_nil.
Defined.

Example processFile_keeps_demo_source :
  disk (processFile (demoEnv [] demoResult) ["r"; "fixes"] tt
          ["r"; "src"; "a.ts"] demoWorld).2 !! ["r"; "src"; "a.ts"]
  = Some (File (lit "abcdef")).
Proof. vm_compute. reflexivity. Qed.

(** The mirrored path of one listed file may be the path of another:
    with [/r/a.ts] and [/r/fixes/a.ts] both listed, the round for the
    first writes its patched copy over the second, whose own round then
    writes to [/r/fixes/fixes/a.ts]. *)
Example analyzeAndPatch_rerun :
  disk (analyzeAndPatch (demoEnv [] demoResult)
          [["r"; "a.ts"]; ["r"; "fixes"; "a.ts"]] tt rerunWorld).2
    !! ["r"; "fixes"; "a.ts"] = Some (File (lit "abcYYef")) ∧
  disk (analyzeAndPatch (demoEnv [] demoResult)
          [["r"; "a.ts"]; ["r"; "fixes"; "a.ts"]] tt rerunWorld).2
    !! ["r"; "fixes"; "fixes"; "a.ts"] = Some (File (lit "abcYYef")) ∧
  disk (analyzeAndPatch (demoEnv [] demoResult)
          [["r"; "a.ts"]; ["r"; "fixes"; "a.ts"]] tt rerunWorld).2
    !! ["r"; "a.ts"] = Some (File (lit "abcdef")).
Proof. vm_compute. repeat split; reflexivity. Qed.


Lemma fixes_root_created_first_witness :
  disk (analyzeAndPatch (demoEnv [] demoResult) [["r"; "src"; "a.ts"]] tt
          demoWorld).2 !! ["r"; "fixes"] = Some Dir.
Proof.
  refine (proj1 (fixes_root_created_first (demoEnv [] demoResult)
                   [["r"; "src"; "a.ts"]] tt demoWorld _) _).
  - vm_compute. reflexivity.
  - intros data. vm_compute. discriminate.
Defined.

(** C9, as stated, fails when a regular file stands at [/r/fixes]:
    the phase runs through without making anything there, and no
    directory [fixes] exists afterwards. *)
Lemma fixes_root_taken_by_a_file :
  ¬ (∀ (E : Env) (files : list abspath) (newProgram : Program E) (w : world),
       wellFormed (disk w) → disk w !! cwd E = Some Dir →
       (analyzeAndPatch E files newProgram w).1 = Ok tt →
       disk (analyzeAndPatch E files newProgram w).2 !! fixDir E = Some Dir).
Proof.
  intros H.
  specialize (H (demoEnv [] demoResult) [] tt blockedWorld).
  assert (wellFormed (disk blockedWorld)) as Hwf.
  { split; [reflexivity|]. simpl.
    do 4 (apply map_Forall_insert_2; [by right|]).
    apply map_Forall_insert_2; [by left|]. apply map_Forall_empty. }
  specialize (H Hwf eq_refl eq_refl). vm_compute in H. discriminate.
Qed.

Example main_demo_writes :
  disk (main (demoEnv [] demoResult) dot None None demoWorld).2
    !! ["r"; "fixes"; "src"; "a.ts"] = Some (File (lit "abcYYef")) ∧
  (main (demoEnv [] demoResult) dot None None demoWorld).1 = Ok tt.
Proof. vm_compute. split; reflexivity. Qed.

(** * Further properties of the code *)

(** ** The patch loop on one replacement, and on repeated ones *)

(** X1. A single replacement in range is applied exactly: the text
    before its start and the text from its end on are the source's,
    its own text sits in between, and the length is the source's minus
    the range plus the new text. *)
Theorem patch_single_replacement (source : str) (r : Replacement) :
  rangeValid source r →
  patch source [r]
    = take (Z.to_nat (startPosition r)) source ++ text r ++
      drop (Z.to_nat (endPosition r)) source ∧
  Z.of_nat (length (patch source [r])) = promisedLength source [r].
Proof.
  intros (Hs & Hse & He).
  assert (patch source [r]
          = take (Z.to_nat (startPosition r)) source ++ text r ++
            drop (Z.to_nat (endPosition r)) source) as Heq.
  { unfold patch. simpl. apply applyReplacement_eq. }
  split; [done|]. rewrite Heq.
  rewrite !length_app, length_take, length_drop. unfold promisedLength. simpl.
  lia.
Qed.

Lemma patch_single_replacement_witness :
  patch (lit "0123456789abcdefghij") [mkReplacement 10 15 (lit "foo")]
  = lit "0123456789foofghij".
Proof.
  refine (proj1 (patch_single_replacement (lit "0123456789abcdefghij")
                   (mkReplacement 10 15 (lit "foo")) _)).
  unfold rangeValid. simpl. lia.
Defined.

Lemma patch_keeps_lowest_only_witness :
  patch (lit "abcdef") [mkReplacement 0 1 (lit "XX"); mkReplacement 3 4 (lit "YY")]
  = lit "XXbcdef".
Proof.
  refine (patch_keeps_lowest_only (lit "abcdef")
            [mkReplacement 0 1 (lit "XX"); mkReplacement 3 4 (lit "YY")] _ _ _).
  - repeat (apply Forall_cons; split; [unfold rangeValid; simpl; lia|]).
    apply Forall_nil_2.
  - simpl. split; [|by split]. apply Forall_cons; split; [|apply Forall_nil_2].
    unfold disjoint. simpl. lia.
  - simpl. apply (bool_decide_unpack (NoDup [1; 4])). vm_compute. reflexivity.
Defined.





(** ** [mkdirParent] when it cannot do its work *)

Lemma wellFormed_below_missing d a b :
  wellFormed d → d !! a = None → d !! (a ++ b) = None.
Proof.
  intros Hwf Ha. apply eq_None_not_Some. intros Hsome.
  apply (wellFormed_prefix d a b Hwf) in Hsome. rewrite Ha in Hsome.
  by destruct Hsome.
Qed.

Lemma wellFormed_below_file d a b data :
  wellFormed d → d !! a = Some (File data) → b ≠ [] → d !! (a ++ b) = None.
Proof.
  intros Hwf Ha. induction b as [|y b IH] using rev_ind; [done|]. intros _.
  apply eq_None_not_Some. intros [x Hx].
  destruct Hwf as [_ Htree].
  destruct (map_Forall_lookup_1 _ _ _ _ Htree Hx) as [Hnil|Hparent].
  - by destruct a, b.
  - rewrite app_assoc, removelast_snoc in Hparent.
    destruct (decide (b = [])) as [->|Hb].
    + rewrite app_nil_r in Hparent. congruence.
    + rewrite IH in Hparent by done. done.
Qed.

Lemma join_plain baseDir dir :
  ".." ∉ segments dir → join baseDir dir = baseDir ++ segments dir.
Proof. intros Hplain. unfold join. by apply resolve_plain. Qed.

Lemma dirname_length dir :
  segments dir ≠ [] →
  S (length (segments (dirname dir))) = length (segments dir).
Proof.
  intros Hne. unfold dirname. simpl. rewrite removelast_length.
  destruct (segments dir); simpl; [done|lia].
Qed.

Lemma removelast_join baseDir dir :
  ".." ∉ segments dir → segments dir ≠ [] →
  removelast (join baseDir dir) = join baseDir (dirname dir).
Proof.
  intros Hplain Hne. rewrite !join_plain by (done || by apply not_elem_of_removelast).
  unfold dirname. simpl.
  destruct (segments dir) as [|x l _] using rev_ind; [done|].
  by rewrite app_assoc, !removelast_snoc.
Qed.

(** X4. Whatever [mkdirParent] is asked and however it ends, it changes
    no entry that was on the disk, and the only calls it makes are
    [mkdirSync] calls that succeed, each for a path that was free when
    the call began. *)
Theorem mkdirParent_preserves (fuel : nat) (baseDir : abspath) (dir : path)
    (w : world) (p : abspath) (x : node) :
  disk w !! p = Some x →
  disk (mkdirParent fuel baseDir dir w).2 !! p = Some x ∧
  ∃ l, log (mkdirParent fuel baseDir dir w).2 = log w ++ l ∧
       Forall (λ e, ∃ q, e = Mkdir q ∧ disk w !! q = None) l.
Proof.
  intros Hp.
  assert (steps (λ d, ∀ q y, disk w !! q = Some y → d !! q = Some y)
                (λ e, ∃ q, e = Mkdir q ∧ disk w !! q = None)
                (mkdirParent fuel baseDir dir)) as Hsteps.
  { apply steps_mkdirParent. intros q d Hd _ _ Hfree. split.
    - intros q' y Hq'. rewrite lookup_insert_ne; [by apply Hd|].
      intros <-. rewrite (Hd _ _ Hq') in Hfree. done.
    - exists q. split; [done|].
      destruct (disk w !! q) as [y|] eqn:Hq; [|done].
      rewrite (Hd _ _ Hq) in Hfree. done. }
  destruct (Hsteps w) as (Hframe & l & Hlog & Hl); [done|].
  split; [by apply Hframe|]. by exists l.
Qed.

Lemma mkdirParent_preserves_witness :
  disk (mkdirParent 5 ["r"] demoDir demoWorld).2 !! ["r"; "src"; "a.ts"]
  = Some (File (lit "abcdef")).
Proof.
  refine (proj1 (mkdirParent_preserves 5 ["r"] demoDir demoWorld
                   ["r"; "src"; "a.ts"] (File (lit "abcdef")) _)).
  vm_compute. reflexivity.
Defined.

Lemma fileAbove_spec (d : gmap (list string) node) (rest here : abspath) :
  fileAbove d here rest = true ↔
  ∃ k data, d !! (here ++ take k rest) = Some (File data).
Proof.
  revert here. induction rest as [|s rest IH]; intros here.
  - simpl. split.
    + destruct (d !! here) as [[|data]|] eqn:Hh; try done.
      intros _. exists 0%nat, data. by rewrite take_nil, app_nil_r.
    + intros (k & data & Hk). rewrite take_nil, app_nil_r in Hk.
      by rewrite Hk.
  - simpl. split.
    + destruct (d !! here) as [[|data]|] eqn:Hh.
      * intros (k & data & Hk)%IH. exists (S k), data.
        by rewrite firstn_cons, cons_middle, app_assoc.
      * intros _. exists 0%nat, data. by rewrite take_0, app_nil_r.
      * intros (k & data & Hk)%IH. exists (S k), data.
        by rewrite firstn_cons, cons_middle, app_assoc.
    + intros (k & data & Hk). destruct k as [|k].
      * rewrite take_0, app_nil_r in Hk. by rewrite Hk.
      * rewrite firstn_cons, cons_middle, app_assoc in Hk.
        assert (fileAbove d (here ++ [s]) rest = true) as ->
          by (apply IH; eauto).
        by destruct (d !! here) as [[|?]|].
Qed.

Lemma absentFault_cases (d : gmap (list string) node) (p : abspath) :
  (absentFault d p = ENOTDIR ∧ ∃ k data, d !! take k p = Some (File data)) ∨
  (absentFault d p = ENOENT ∧ ∀ k data, d !! take k p ≠ Some (File data)).
Proof.
  unfold absentFault. destruct (fileAbove d [] p) eqn:Hf.
  - left. split; [done|]. by apply (fileAbove_spec d p []).
  - right. split; [done|]. intros k data Hk.
    assert (fileAbove d [] p = true) as Ht
      by (apply fileAbove_spec; by exists k, data).
    congruence.
Qed.

(** X5. Under a base directory that does not exist, [mkdirParent] of a
    relative path in normal form with at least one segment throws and
    leaves everything as it was: it never creates the base itself.  The
    fault is the one the first [mkdirSync] meets at the base: [ENOTDIR]
    when a regular file stands at one of the prefixes of the base,
    [ENOENT] when none does. *)
Theorem mkdirParent_missing_base (baseDir : abspath) (dir : path) (w : world) :
  wellFormed (disk w) → disk w !! baseDir = None →
  absolute dir = false → ".." ∉ segments dir → dir ≠ dot →
  mkdirParent (S (length (segments dir))) baseDir dir w
    = (Throw (absentFault (disk w) baseDir), w) ∧
  ((absentFault (disk w) baseDir = ENOTDIR ∧
    ∃ k data, disk w !! take k baseDir = Some (File data)) ∨
   (absentFault (disk w) baseDir = ENOENT ∧
    ∀ k data, disk w !! take k baseDir ≠ Some (File data))).
Proof.
  intros Hwf Hbase Hrel Hplain Hdot. split; [|apply absentFault_cases].
  remember (length (segments dir)) as n eqn:Hn.
  revert dir Hn Hrel Hplain Hdot.
  induction n as [|n IH]; intros dir Hn Hrel Hplain Hdot.
  { pose proof (relative_segments_nonempty dir Hrel Hdot).
    by destruct (segments dir). }
  pose proof (relative_segments_nonempty dir Hrel Hdot) as Hne.
  rewrite mkdirParent_step. rewrite decide_False by done.
  assert (exists_on (disk w) (join baseDir dir) = false) as ->.
  { apply exists_on_false. rewrite join_plain by done.
    by apply wellFormed_below_missing. }
  pose proof (dirname_length dir Hne) as Hlen.
  destruct (decide (dirname dir = dot)) as [Hd|Hd].
  - assert (n = 0%nat) as -> by (rewrite Hd in Hlen; simpl in Hlen; lia).
    rewrite Hd. simpl. unfold mkdirSync.
    rewrite decide_False
      by (rewrite join_plain by done; by destruct baseDir, (segments dir)).
    rewrite removelast_join, Hd by done. unfold join. simpl. by rewrite Hbase.
  - rewrite (IH (dirname dir)); [done|lia|done| |done].
    by apply not_elem_of_removelast.
Qed.

Lemma mkdirParent_missing_base_witness :
  (mkdirParent 5 ["r"; "fixes"] demoDir demoWorld
     = (Throw (absentFault (disk demoWorld) ["r"; "fixes"]), demoWorld) ∧
   ((absentFault (disk demoWorld) ["r"; "fixes"] = ENOTDIR ∧
     ∃ k data,
       disk demoWorld !! take k ["r"; "fixes"] = Some (File data)) ∨
    (absentFault (disk demoWorld) ["r"; "fixes"] = ENOENT ∧
     ∀ k data,
       disk demoWorld !! take k ["r"; "fixes"] ≠ Some (File data)))) ∧
  absentFault (disk demoWorld) ["r"; "fixes"] = ENOENT ∧
  absentFault (disk demoWorld) ["r"; "src"; "a.ts"; "out"] = ENOTDIR.
Proof.
  split; [|split; vm_compute; reflexivity].
  apply (mkdirParent_missing_base ["r"; "fixes"] demoDir demoWorld
           demoWorld_wellFormed).
  - vm_compute. reflexivity.
  - reflexivity.
  - exact demoDir_plain.
  - exact demoDir_not_dot.
Defined.

(** X6. When a regular file sits where one of the directories above the
    target should be (or at the base itself), [mkdirParent] throws
    [ENOTDIR] and creates nothing.  When the file sits at the target
    itself, [existsSync] is satisfied: the call returns as if the
    directory were there. *)
Theorem mkdirParent_file_in_the_way (baseDir : abspath) (dir : path) (w : world)
    (k : nat) (data : str) :
  wellFormed (disk w) → absolute dir = false → ".." ∉ segments dir →
  (k ≤ length (segments dir))%nat → dir ≠ dot →
  disk w !! ancestor baseDir dir k = Some (File data) →
  mkdirParent (S (length (segments dir))) baseDir dir w =
    (if decide (k = length (segments dir)) then Ok tt else Throw ENOTDIR, w).
Proof.
  intros Hwf. remember (length (segments dir)) as n eqn:Hn.
  revert dir Hn. induction n as [|n IH]; intros dir Hn Hrel Hplain Hk Hdot Hfile.
  { pose proof (relative_segments_nonempty dir Hrel Hdot).
    by destruct (segments dir). }
  pose proof (relative_segments_nonempty dir Hrel Hdot) as Hne.
  pose proof (dirname_length dir Hne) as Hlen.
  rewrite mkdirParent_step. rewrite decide_False by done.
  destruct (decide (k = S n)) as [Hkn|Hkn].
  { subst k. rewrite Hn, ancestor_full in Hfile by done.
    assert (exists_on (disk w) (join baseDir dir) = true) as ->; [|done].
    apply exists_on_true. eauto. }
  assert (exists_on (disk w) (join baseDir dir) = false) as ->.
  { apply exists_on_false. rewrite join_plain by done.
    rewrite <- (take_drop k (segments dir)), app_assoc.
    apply (wellFormed_below_file _ _ _ data Hwf Hfile).
    intros Hnil. apply (f_equal length) in Hnil.
    rewrite length_drop in Hnil. simpl in Hnil. lia. }
  assert (disk w !! ancestor baseDir (dirname dir) k = Some (File data)) as Hfile'
    by (rewrite ancestor_dirname by lia; done).
  destruct (decide (dirname dir = dot)) as [Hd|Hd].
  - assert (n = 0%nat) as -> by (rewrite Hd in Hlen; simpl in Hlen; lia).
    assert (k = 0%nat) as -> by lia.
    rewrite Hd. simpl. unfold mkdirSync.
    rewrite decide_False
      by (rewrite join_plain by done; by destruct baseDir, (segments dir)).
    rewrite removelast_join, Hd by done. unfold join. simpl.
    unfold ancestor in Hfile. rewrite take_0, app_nil_r in Hfile.
    by rewrite Hfile.
  - rewrite (IH (dirname dir)); [|lia|done| |lia|done|done].
    2: by apply not_elem_of_removelast.
    destruct (decide (k = n)) as [Hkn'|Hkn']; [|done]. subst k.
    unfold mkdirSync.
    rewrite decide_False
      by (rewrite join_plain by done; by destruct baseDir, (segments dir)).
    rewrite removelast_join by done.
    assert (n = length (segments (dirname dir))) as Hn' by lia.
    rewrite Hn', ancestor_full in Hfile' by (by apply not_elem_of_removelast).
    by rewrite Hfile'.
Qed.

Lemma mkdirParent_file_in_the_way_witness :
  mkdirParent 4 ["r"] (mkPath false ["src"; "a.ts"; "gen"]) demoWorld
  = (Throw ENOTDIR, demoWorld).
Proof.
  refine (mkdirParent_file_in_the_way ["r"] (mkPath false ["src"; "a.ts"; "gen"])
            demoWorld 2 (lit "abcdef") demoWorld_wellFormed eq_refl _ _ _ _).
  - simpl. rewrite !not_elem_of_cons. repeat split; [done..|]. apply not_elem_of_nil.
  - simpl. lia.
  - discriminate.
  - vm_compute. reflexivity.
Defined.

(** X7. For an absolute path the chain of parents ends in ['/'], which
    is its own parent and is not ['.']: under a base directory that
    does not exist the recursion never ends, whatever budget it is
    given, and nothing is created on the way. *)
Theorem mkdirParent_absolute_never_ends (baseDir : abspath) (dir : path)
    (w : world) (fuel : nat) :
  wellFormed (disk w) → disk w !! baseDir = None →
  absolute dir = true → ".." ∉ segments dir →
  mkdirParent fuel baseDir dir w = (OutOfFuel, w).
Proof.
  intros Hwf Hbase. revert dir. induction fuel as [|fuel IH];
    intros dir Habs Hplain; [done|].
  rewrite mkdirParent_step.
  rewrite decide_False by (intros ->; discriminate Habs).
  assert (exists_on (disk w) (join baseDir dir) = false) as ->.
  { apply exists_on_false. rewrite join_plain by done.
    by apply wellFormed_below_missing. }
  rewrite (IH (dirname dir)); [done|done|]. by apply not_elem_of_removelast.
Qed.

Lemma mkdirParent_absolute_never_ends_witness :
  mkdirParent 1000 ["r"; "fixes"] (mkPath true ["a"; "b"; "c"; "d"]) demoWorld
  = (OutOfFuel, demoWorld).
Proof.
  apply (mkdirParent_absolute_never_ends ["r"; "fixes"]
           (mkPath true ["a"; "b"; "c"; "d"]) demoWorld 1000 demoWorld_wellFormed).
  - vm_compute. reflexivity.
  - reflexivity.
  - exact demoDir_plain.
Defined.

(** ** The loop over the files *)

Lemma demoFixesWorld_wellFormed : wellFormed (disk demoFixesWorld).
Proof.
  split; [reflexivity|]. simpl.
  do 4 (apply map_Forall_insert_2; [by right|]).
  apply map_Forall_insert_2; [by left|]. apply map_Forall_empty.
Defined.

Lemma processFile_writes_patched_witness :
  ∃ w1,
    processFile (demoEnv [] demoResult) ["r"; "fixes"] tt ["r"; "src"; "a.ts"]
      demoFixesWorld = (Ok tt, w1) ∧
    disk w1 !! ["r"; "fixes"; "src"; "a.ts"] = Some (File (lit "abcYYef")) ∧
    last (log w1)
      = Some (WriteFile ["r"; "fixes"; "src"; "a.ts"] (lit "abcYYef")).
Proof.
  refine (processFile_writes_patched (demoEnv [] demoResult) tt ["src"; "a.ts"]
            (lit "abcdef") demoResult demoFixesWorld
            eq_refl eq_refl _ _ _ _ demoFixesWorld_wellFormed _ _ _).
  - simpl. lia.
  - discriminate.
  - discriminate.
  - rewrite !not_elem_of_cons. repeat split; [done..|]. apply not_elem_of_nil.
  - vm_compute. reflexivity.
  - intros k data Hk. simpl in Hk. assert (k = 1%nat) as -> by lia.
    vm_compute. discriminate.
  - vm_compute. discriminate.
Defined.

Lemma analyzeAndPatch_writes_mirrors_only_witness :
  disk (analyzeAndPatch (demoEnv [] demoResult) [["r"; "src"; "a.ts"]] tt
          demoFixesWorld).2 !! ["r"; "src"; "a.ts"]
  = Some (File (lit "abcdef")).
Proof.
  refine (proj1 (proj2 (analyzeAndPatch_writes_mirrors_only (demoEnv [] demoResult)
                          [["r"; "src"; "a.ts"]] tt demoFixesWorld _))
                ["r"; "src"; "a.ts"] _ _).
  - apply Forall_cons. split; [exact demoFile_plain|]. apply Forall_nil_2.
  - vm_compute. eexists. reflexivity.
  - intros f Hf. apply list_elem_of_singleton in Hf as ->. vm_compute. discriminate.
Defined.

Section Loop.

Context (E : Env).

Lemma processFile_nothing_to_write (base : abspath) (program : Program E)
    (file : abspath) (source : str) (result : LintResult) (w : world) :
  getSourceFile E program file = Some source →
  lint E file source program = inr result →
  failureCount result ≤ 0 ∨ collectReplacements (failures result) = [] →
  processFile E base program file w
  = (Ok tt, mkWorld (disk w) (log w ++ lintReport file result)).
Proof.
  intros Hsource Hresult Hnothing. unfold processFile.
  rewrite (bind_Ok (getFullText E program _) _ w source w)
    by (unfold getFullText; by rewrite Hsource).
  rewrite (bind_Ok (linter_lint E _ source program) _ w result
             (mkWorld (disk w) (log w ++ [Lint file])))
    by (unfold linter_lint; by rewrite Hresult).
  unfold lintReport. case_decide as Hcount.
  - destruct Hnothing as [?|Hnone]; [lia|].
    rewrite (bind_Ok (record _) _ _ tt _ eq_refl). rewrite Hnone. simpl.
    by rewrite <- app_assoc.
  - reflexivity.
Qed.

Lemma forOf_app {A : Type} (body : A → M unit) (l1 l2 : list A) (w : world) :
  forOf body (l1 ++ l2) w =
    match forOf body l1 w with
    | (Ok _, w') => forOf body l2 w'
    | other => other
    end.
Proof.
  revert w. induction l1 as [|x l1 IH]; intros w; simpl; [done|].
  unfold mbind, M_bind. destruct (body x w) as [[[]|e|] w']; [|done..].
  apply IH.
Qed.

(** X10. When every listed file is known to the program and none has
    anything to write - the linter counts no failure, or its findings
    carry no fix - the loop returns, the files are linted in the order
    of the list, each finding is printed, and the disk is changed by
    nothing but the [fixes] directory itself. *)
Theorem analyzeAndPatch_nothing_to_fix (files : list abspath)
    (program : Program E) (w : world) :
  disk w !! cwd E = Some Dir →
  Forall (λ file, ∃ source result,
            getSourceFile E program file = Some source ∧
            lint E file source program = inr result ∧
            (failureCount result ≤ 0 ∨
             collectReplacements (failures result) = [])) files →
  analyzeAndPatch E files program w =
    (Ok tt,
     if exists_on (disk w) (fixDir E)
     then mkWorld (disk w) (log w ++ lintLog E program files)
     else mkWorld (<[fixDir E := Dir]> (disk w))
                  (log w ++ Mkdir (fixDir E) :: lintLog E program files)).
Proof.
  intros Hcwd Hfiles.
  assert (∀ w', forOf (processFile E (fixDir E) program) files w'
                = (Ok tt, mkWorld (disk w') (log w' ++ lintLog E program files)))
    as Hloop.
  { induction Hfiles as [|file files (source & result & Hs & Hr & Hn) _ IH];
      intros w'; simpl.
    - rewrite app_nil_r. by destruct w'.
    - rewrite (bind_Ok _ _ _ _ _
                 (processFile_nothing_to_write _ _ _ _ _ w' Hs Hr Hn)).
      rewrite IH. simpl. unfold lintLog at 2. simpl. rewrite Hs, Hr.
      by rewrite <- app_assoc. }
  unfold analyzeAndPatch.
  rewrite (bind_Ok (existsSync _) _ _ _ _ eq_refl).
  destruct (exists_on (disk w) (fixDir E)) eqn:Hex.
  - rewrite (bind_Ok (mret tt) _ _ _ _ eq_refl). apply Hloop.
  - apply exists_on_false in Hex.
    assert (mkdirSync (fixDir E) w
            = (Ok tt, mkWorld (<[fixDir E := Dir]> (disk w))
                              (log w ++ [Mkdir (fixDir E)]))) as Hmk.
    { assert (removelast (fixDir E) = cwd E) as Hparent
        by (rewrite fixDir_eq; apply removelast_snoc).
      assert (fixDir E ≠ []) as Hne by (rewrite fixDir_eq; by destruct (cwd E)).
      unfold mkdirSync. rewrite decide_False by done.
      by rewrite Hparent, Hcwd, Hex. }
    rewrite (bind_Ok _ _ _ _ _ Hmk). rewrite Hloop. simpl.
    by rewrite <- app_assoc.
Qed.

(** X11. A listed file the program does not know ends the loop with a
    [TypeError] at its turn: the files before it are handled as if the
    list ended there, and the files after it are never looked at. *)
Theorem analyzeAndPatch_unknown_file (before after : list abspath)
    (file : abspath) (program : Program E) (w : world) :
  getSourceFile E program file = None →
  analyzeAndPatch E (before ++ file :: after) program w =
    match analyzeAndPatch E before program w with
    | (Ok _, w') => (Throw TypeError, w')
    | other => other
    end.
Proof.
  intros Hunknown.
  assert (∀ w', forOf (processFile E (fixDir E) program) (before ++ file :: after) w'
                = match forOf (processFile E (fixDir E) program) before w' with
                  | (Ok _, w'') => (Throw TypeError, w'')
                  | other => other
                  end) as Hloop.
  { intros w'. rewrite forOf_app.
    destruct (forOf _ before w') as [[[]|e|] w'']; [|done..].
    simpl. unfold mbind at 1, M_bind at 1. unfold processFile at 1.
    unfold mbind at 1, M_bind at 1. unfold getFullText. by rewrite Hunknown. }
  unfold analyzeAndPatch.
  rewrite !(bind_Ok (existsSync _) _ _ _ _ eq_refl).
  destruct (exists_on (disk w) (fixDir E)).
  - rewrite !(bind_Ok (mret tt) _ _ _ _ eq_refl). apply Hloop.
  - destruct (mkdirSync (fixDir E) w) as [[[]|e|] w'] eqn:Hmk.
    + rewrite !(bind_Ok _ _ _ _ _ Hmk). apply Hloop.
    + by rewrite !(bind_Throw _ _ _ _ _ Hmk).
    + by pose proof (mkdirSync_no_timeout (fixDir E) w) as Hno; rewrite Hmk in Hno.
Qed.

End Loop.

Lemma analyzeAndPatch_nothing_to_fix_witness :
  analyzeAndPatch (demoEnv [] demoUnfixable) [["r"; "src"; "a.ts"]] tt demoWorld =
    (Ok tt,
     mkWorld (<[ ["r"; "fixes"] := Dir ]> (disk demoWorld))
       [Mkdir ["r"; "fixes"]; Lint ["r"; "src"; "a.ts"];
        LogOutput (lit "a.ts[1, 4]: finding")]).
Proof.
  refine (analyzeAndPatch_nothing_to_fix (demoEnv [] demoUnfixable)
            [["r"; "src"; "a.ts"]] tt demoWorld _ _).
  - vm_compute. reflexivity.
  - apply Forall_cons. split; [|apply Forall_nil_2].
    exists (lit "abcdef"), demoUnfixable. split; [reflexivity|].
    split; [reflexivity|]. right. reflexivity.
Defined.

Lemma analyzeAndPatch_unknown_file_witness :
  analyzeAndPatch (demoEnvKnowing [["r"; "src"; "a.ts"]] demoClean)
    ([["r"; "src"; "a.ts"]] ++ ["r"; "src"; "b.ts"] :: [["r"; "src"; "a.ts"]])
    tt demoFixesWorld
  = (Throw TypeError, mkWorld (disk demoFixesWorld) [Lint ["r"; "src"; "a.ts"]]).
Proof.
  refine (analyzeAndPatch_unknown_file
            (demoEnvKnowing [["r"; "src"; "a.ts"]] demoClean)
            [["r"; "src"; "a.ts"]] [["r"; "src"; "a.ts"]] ["r"; "src"; "b.ts"]
            tt demoFixesWorld _).
  vm_compute. reflexivity.
Defined.

(** ** The analysis step as a whole *)

Lemma writeFileSync_Ok_inv p data w w1 :
  writeFileSync p data w = (Ok tt, w1) →
  p ≠ [] ∧ disk w !! removelast p = Some Dir ∧ disk w !! p ≠ Some Dir ∧
  w1 = mkWorld (<[p := File data]> (disk w)) (log w ++ [WriteFile p data]).
Proof.
  unfold writeFileSync. case_decide; [done|].
  destruct (disk w !! removelast p) as [[|?]|]; [|done|done].
  destruct (disk w !! p) as [[|?]|]; [done| |]; by intros [= <-].
Qed.

Lemma clearFor_kept (root : abspath) (d d' : gmap (list string) node)
    (rel rel' : list string) :
  (∀ p, d' !! p ≠ d !! p →
        (p = root ++ rel ∧ ∃ data, d' !! p = Some (File data)) ∨
        (d' !! p = Some Dir ∧
         ∃ k, (1 ≤ k < length rel)%nat ∧ p = root ++ take k rel)) →
  (∀ k, (k < length rel')%nat → rel ≠ take k rel') →
  (∀ k, (k < length rel)%nat → rel' ≠ take k rel) →
  clearFor root d rel' → clearFor root d' rel'.
Proof.
  intros Hchanged Hnotabove Hnotbelow [Hfiles Hdir]. split.
  - intros k data Hk Hfile.
    destruct (decide (d' !! (root ++ take k rel') = d !! (root ++ take k rel')))
      as [Heq|Hne].
    + apply (Hfiles k data Hk). by rewrite <- Heq.
    + destruct (Hchanged _ Hne) as [[Hp _]|[Hnew _]]; [|congruence].
      apply app_inv_head in Hp. apply (Hnotabove k); [lia|done].
  - intros Hnew.
    destruct (decide (d' !! (root ++ rel') = d !! (root ++ rel'))) as [Heq|Hne].
    + apply Hdir. by rewrite <- Heq.
    + destruct (Hchanged _ Hne) as [[_ [data Hfile]]|[_ (k & Hk & Hp)]];
        [congruence|].
      apply app_inv_head in Hp. apply (Hnotbelow k); [lia|done].
Qed.

Section Whole.

Context (E : Env).

Lemma patchedText_Some (program : Program E) (file : abspath) (data : str) :
  patchedText E program file = Some data ↔
  ∃ source result,
    getSourceFile E program file = Some source ∧
    lint E file source program = inr result ∧
    0 < failureCount result ∧
    collectReplacements (failures result) ≠ [] ∧
    data = patch source (collectReplacements (failures result)).
Proof.
  unfold patchedText. split.
  - destruct (getSourceFile E program file) as [source|]; [|done].
    destruct (lint E file source program) as [e|result] eqn:Hr; [done|].
    case_decide as Hcount; [|done]. case_decide as Hlen; [|done].
    intros [= <-]. exists source, result. repeat split; try done.
    intros Hnil. rewrite Hnil in Hlen. simpl in Hlen. lia.
  - intros (source & result & -> & -> & Hcount & Hrs & ->).
    rewrite decide_True by done. rewrite decide_True; [done|].
    destruct (collectReplacements (failures result)); simpl; [done|lia].
Qed.

Lemma patchedText_None (program : Program E) (file : abspath) (source : str)
    (result : LintResult) :
  getSourceFile E program file = Some source →
  lint E file source program = inr result →
  patchedText E program file = None →
  failureCount result ≤ 0 ∨ collectReplacements (failures result) = [].
Proof.
  intros Hs Hr. unfold patchedText. rewrite Hs, Hr.
  case_decide as Hcount; [|left; lia]. case_decide as Hlen; [done|].
  intros _. right. destruct (collectReplacements (failures result)); [done|].
  simpl in Hlen. lia.
Qed.

Lemma mirrored_below (rel : list string) :
  ".." ∉ rel → mirrored E (cwd E ++ rel) = fixDir E ++ rel.
Proof.
  intros Hplain. unfold mirrored, join, relative. simpl.
  rewrite relative_below. by apply resolve_plain.
Qed.

Lemma processFile_Ok_wrote (base : abspath) (program : Program E)
    (file : abspath) (data : str) (w w1 : world) :
  processFile E base program file w = (Ok tt, w1) →
  patchedText E program file = Some data →
  ∃ l, log w1 = log w ++ l ++ [WriteFile (join base (relative (cwd E) file)) data].
Proof.
  intros Hrun (source & result & Hs & Hr & Hcount & Hrs & ->)%patchedText_Some.
  revert Hrun. unfold processFile.
  rewrite (bind_Ok (getFullText E program _) _ w source w)
    by (unfold getFullText; by rewrite Hs).
  rewrite (bind_Ok (linter_lint E _ source program) _ w result
             (mkWorld (disk w) (log w ++ [Lint file])))
    by (unfold linter_lint; by rewrite Hr).
  rewrite decide_True by done.
  rewrite (bind_Ok (record _) _ _ tt _ eq_refl).
  rewrite decide_True
    by (destruct (collectReplacements (failures result)); simpl; [done|lia]).
  rewrite (bind_Ok (record _) _ _ tt _ eq_refl).
  intros ([] & w3 & Hmk & Hwrite)%bind_Ok_inv.
  apply writeFileSync_Ok_inv in Hwrite as (_ & _ & _ & ->).
  match type of Hmk with mkdirParent ?fuel ?b ?d ?w2 = _ =>
    destruct (steps_mkdirParent (λ _, True) (λ _, True) fuel b d) with (w := w2)
      as (_ & l & Hl & _); [done|done|] end.
  rewrite Hmk in Hl. simpl in Hl. simpl. rewrite Hl.
  exists (Lint file :: LogOutput (output result)
            :: LogCreatingFix (relative (cwd E) file) :: l).
  by rewrite <- !app_assoc.
Qed.

Lemma forOf_Ok_wrote (base : abspath) (program : Program E) (xs : list abspath) :
  ∀ w w1,
    forOf (processFile E base program) xs w = (Ok tt, w1) →
    ∃ l, log w1 = log w ++ l ∧
         ∀ x data, x ∈ xs → patchedText E program x = Some data →
                   WriteFile (join base (relative (cwd E) x)) data ∈ l.
Proof.
  induction xs as [|x xs IH]; intros w w1; simpl.
  - intros [= <-]. exists []. split; [by rewrite app_nil_r|].
    intros y data Hy. by apply elem_of_nil in Hy.
  - intros ([] & w' & Hx & Hrest)%bind_Ok_inv.
    destruct (IH _ _ Hrest) as (l2 & Hl2 & Hin2).
    assert (∃ l1, log w' = log w ++ l1) as [l1 Hl1].
    { destruct (steps_processFile (λ _, True) (λ _, True) E base program x)
        with (w := w) as (_ & l1 & Hl1 & _); try done.
      rewrite Hx in Hl1. eauto. }
    exists (l1 ++ l2). split; [by rewrite Hl2, Hl1, app_assoc|].
    intros y data Hy Hdata. apply elem_of_cons in Hy as [->|Hy].
    + destruct (processFile_Ok_wrote _ _ _ _ _ _ Hx Hdata) as [l Hl].
      rewrite Hl1 in Hl. apply app_inv_head in Hl. subst l1.
      apply elem_of_app. left. apply elem_of_app. right.
      by apply list_elem_of_singleton.
    + apply elem_of_app. right. by eapply Hin2.
Qed.

Lemma forOf_prepared (files : list abspath) (program : Program E) :
  (∀ f, f ∈ files →
        ∃ rel, f = cwd E ++ rel ∧ rel ≠ [] ∧ (".." ∉ rel) ∧ linted E program f) →
  (∀ f g, f ∈ files → g ∈ files → f `prefix_of` g → f = g) →
  ∀ xs done w,
    (∀ f, f ∈ xs → f ∈ files) → (∀ f, f ∈ done → f ∈ files) →
    wellFormed (disk w) → disk w !! fixDir E = Some Dir →
    (∀ rel, cwd E ++ rel ∈ files → clearFor (fixDir E) (disk w) rel) →
    (∀ f data, f ∈ done → patchedText E program f = Some data →
               disk w !! mirrored E f = Some (File data)) →
    ∃ w1,
      forOf (processFile E (fixDir E) program) xs w = (Ok tt, w1) ∧
      ∀ f data, f ∈ done ++ xs → patchedText E program f = Some data →
                disk w1 !! mirrored E f = Some (File data).
Proof.
  intros Hbelow Hflat.
  assert (∀ rel rel' k, cwd E ++ rel ∈ files → cwd E ++ rel' ∈ files →
                        (k < length rel')%nat → rel ≠ take k rel') as Hapart.
  { intros rel rel' k Hrel Hrel' Hk Heq.
    assert (cwd E ++ rel = cwd E ++ rel') as Hsame.
    { apply Hflat; [done|done|]. exists (drop k rel').
      by rewrite Heq, <- app_assoc, take_drop. }
    apply app_inv_head in Hsame. subst rel'.
    apply (f_equal length) in Heq. rewrite length_take in Heq. lia. }
  induction xs as [|x xs IH]; intros done w Hxs Hdone Hwf Hfix Hclear Hkept.
  { exists w. split; [done|]. by rewrite app_nil_r. }
  destruct (Hbelow x) as (rel & -> & Hrel & Hplain & source & result & Hs & Hr);
    [apply Hxs; by left|].
  assert (cwd E ++ rel ∈ files) as Hin by (apply Hxs; by left).
  assert (∃ w',
    processFile E (fixDir E) program (cwd E ++ rel) w = (Ok tt, w') ∧
    wellFormed (disk w') ∧ disk w' !! fixDir E = Some Dir ∧
    (∀ rel', cwd E ++ rel' ∈ files → clearFor (fixDir E) (disk w') rel') ∧
    (∀ f data, f ∈ done ++ [cwd E ++ rel] →
               patchedText E program f = Some data →
               disk w' !! mirrored E f = Some (File data)))
    as (w' & Hrun & Hwf' & Hfix' & Hclear' & Hkept').
  { destruct (patchedText E program (cwd E ++ rel)) as [data|] eqn:Hpatched.
    - pose proof Hpatched as Hp.
      apply patchedText_Some in Hp
        as (source' & result' & Hs' & Hr' & Hcount & Hrs & Hdata).
      assert (source' = source) as -> by congruence.
      assert (result' = result) as -> by congruence.
      destruct (Hclear rel Hin) as [Hnofile Hnodir].
      destruct (processFile_fixable_run E program rel source result w)
        as (w' & Hrun & Hwf' & Hwritten & _ & Hframe); [done..|].
      rewrite <- Hdata in Hwritten.
      assert (∀ p, disk w' !! p ≠ disk w !! p →
                (p = fixDir E ++ rel ∧ ∃ data, disk w' !! p = Some (File data)) ∨
                (disk w' !! p = Some Dir ∧
                 ∃ k, (1 ≤ k < length rel)%nat ∧ p = fixDir E ++ take k rel))
        as Hchanged.
      { intros p Hp. destruct (decide (p = fixDir E ++ rel)) as [->|Hne].
        - left. eauto.
        - right. by destruct (Hframe p Hne Hp) as (_ & ? & ?). }
      exists w'. split; [done|]. split; [done|]. split; [|split].
      + destruct (decide (disk w' !! fixDir E = disk w !! fixDir E))
          as [->|Hne]; [done|].
        destruct (Hchanged _ Hne) as [[Hp _]|[? _]]; [|done].
        exfalso. apply (f_equal length) in Hp. rewrite length_app in Hp.
        destruct rel; simpl in Hp; [done|lia].
      + intros rel' Hrel'.
        apply (clearFor_kept (fixDir E) (disk w) (disk w') rel rel');
          [done| | |by apply Hclear].
        * intros k Hk. by apply Hapart.
        * intros k Hk. by apply Hapart.
      + intros f data' Hf Hdata'.
        destruct (decide (f = cwd E ++ rel)) as [->|Hfne].
        { rewrite mirrored_below by done. congruence. }
        apply elem_of_app in Hf as [Hf|Hf];
          [|by apply list_elem_of_singleton in Hf].
        destruct (Hbelow f (Hdone f Hf)) as (rel' & -> & _ & Hplain' & _).
        pose proof (Hkept _ _ Hf Hdata') as Hold.
        rewrite mirrored_below in * by done.
        destruct (decide (disk w' !! (fixDir E ++ rel')
                          = disk w !! (fixDir E ++ rel'))) as [->|Hne]; [done|].
        destruct (Hchanged _ Hne) as [[Hp _]|[_ (k & Hk & Hp)]].
        * apply app_inv_head in Hp. by subst rel'.
        * destruct (decide (fixDir E ++ rel' = fixDir E ++ rel)) as [Hp'|Hp'].
          { apply app_inv_head in Hp'. by subst rel'. }
          destruct (Hframe _ Hp' Hne) as (Hnone & _). congruence.
    - pose proof (patchedText_None program _ _ _ Hs Hr Hpatched) as Hnothing.
      pose proof (processFile_nothing_to_write E (fixDir E) program _ _ _ w
                    Hs Hr Hnothing) as Hrun.
      eexists. split; [exact Hrun|]. simpl. split; [done|]. split; [done|].
      split; [done|]. intros f data Hf Hdata.
      apply elem_of_app in Hf as [Hf|Hf]; [by apply Hkept|].
      apply list_elem_of_singleton in Hf as ->. congruence. }
  destruct (IH (done ++ [cwd E ++ rel]) w') as (w1 & Hloop & Hall);
    [|by intros f [Hf| ->%list_elem_of_singleton]%elem_of_app; auto
     |done..|].
  { intros f Hf. apply Hxs. by right. }
  exists w1. split.
  - simpl. by rewrite (bind_Ok _ _ _ _ _ Hrun).
  - intros f data Hf. apply Hall. by rewrite <- app_assoc.
Qed.

(** C8, amended. Over the whole step, whatever was on the disk stays
    as it was unless it lies at the mirrored path of a listed file - the path of
    the file relative to the working directory, joined under [fixes] -
    and that path is never the file's own: a listed source file is
    changed only if it lies at the mirrored path of another listed
    file.  Every file write goes to the mirrored path of a listed file
    and carries that file's patched text, and in a step that returns
    every listed file with a replacement collected has had its write.
    On a disk that is a tree, with the working directory there, the
    listed files below it, none of them a prefix of another, known to
    the program and answered by the linter, and nothing in the way of
    their copies, the step does return: each patched text is then on
    disk at its mirrored path, and every listed file outside [fixes] is
    as it was. *)
Theorem analyzeAndPatch_patches_mirrors (files : list abspath)
    (newProgram : Program E) (w : world) :
  Forall (λ f, ".." ∉ f) files →
  (∀ f, f ∈ files → mirrored E f ≠ f) ∧
  (∀ p, is_Some (disk w !! p) → (∀ g, g ∈ files → p ≠ mirrored E g) →
        disk (analyzeAndPatch E files newProgram w).2 !! p = disk w !! p) ∧
  (∃ l, log (analyzeAndPatch E files newProgram w).2 = log w ++ l ∧
        Forall (λ e, ∀ p data, e = WriteFile p data →
                  ∃ f, f ∈ files ∧ p = mirrored E f ∧
                       patchedText E newProgram f = Some data) l ∧
        ((analyzeAndPatch E files newProgram w).1 = Ok tt →
         ∀ f data, f ∈ files → patchedText E newProgram f = Some data →
                   WriteFile (mirrored E f) data ∈ l)) ∧
  (wellFormed (disk w) → disk w !! cwd E = Some Dir →
   (∀ data, disk w !! fixDir E ≠ Some (File data)) →
   (∀ f, f ∈ files →
         ∃ rel, f = cwd E ++ rel ∧ rel ≠ [] ∧ linted E newProgram f ∧
                clearFor (fixDir E) (disk w) rel) →
   (∀ f g, f ∈ files → g ∈ files → f `prefix_of` g → f = g) →
   (analyzeAndPatch E files newProgram w).1 = Ok tt ∧
   (∀ f data, f ∈ files → patchedText E newProgram f = Some data →
              disk (analyzeAndPatch E files newProgram w).2 !! mirrored E f
                = Some (File data)) ∧
   (∀ f, f ∈ files → is_Some (disk w !! f) → ¬ fixDir E `prefix_of` f →
         disk (analyzeAndPatch E files newProgram w).2 !! f = disk w !! f)).
Proof.
  intros Hplain. rewrite Forall_forall in Hplain.
  set (P := λ d : gmap (list string) node,
         ∀ p, is_Some (disk w !! p) → (∀ f, f ∈ files → p ≠ mirrored E f) →
              d !! p = disk w !! p).
  set (Q := λ e, ∀ p data, e = WriteFile p data →
         ∃ f, f ∈ files ∧ p = mirrored E f ∧
              patchedText E newProgram f = Some data).
  assert (∀ p d, P d → d !! p = None → P (<[p := Dir]> d)) as Hmkdir.
  { intros p d Hd Hp q Hq Hfree.
    destruct (decide (p = q)) as [->|Hpq].
    - rewrite <- (Hd q Hq Hfree), Hp in Hq. by destruct Hq.
    - rewrite lookup_insert_ne by done. by apply Hd. }
  assert (steps P Q (analyzeAndPatch E files newProgram)) as Hsteps.
  { unfold analyzeAndPatch.
    apply steps_bind; [apply steps_existsSync|]. intros found.
    apply steps_bind.
    { destruct found; [apply steps_ret|]. apply steps_mkdirSync.
      intros d Hd _ _ Hfree. split; [by apply Hmkdir|done]. }
    intros _. apply steps_forOf. intros file Hfile.
    apply steps_processFile; [done|done|done| |].
    - intros p d Hd _ _ Hfree. split; [by apply Hmkdir|done].
    - intros source result Hsource Hresult Hcount Hrs d Hd _ _. split.
      + intros q Hq Hfree. rewrite lookup_insert_ne; [by apply Hd|].
        intros Heq. by apply (Hfree file Hfile).
      + intros p data [= <- <-]. exists file. split; [done|].
        split; [done|]. apply patchedText_Some. by exists source, result. }
  destruct (Hsteps w) as (Hframe & l & Hlog & Hwrites); [done|].
  split; [intros f Hf; apply mirrored_neq; by apply Hplain|].
  split; [exact Hframe|]. split.
  - exists l. split; [done|]. split; [done|].
    intros Hok f data Hf Hdata.
    destruct (analyzeAndPatch E files newProgram w) as [r w1] eqn:Hrun.
    simpl in Hok, Hlog. subst r. revert Hrun. unfold analyzeAndPatch.
    intros (found & w0 & Hfound & Hrun)%bind_Ok_inv.
    apply bind_Ok_inv in Hrun as ([] & w' & Hmk & Hloop).
    destruct (forOf_Ok_wrote _ _ _ _ _ Hloop) as (l2 & Hl2 & Hin).
    assert (∃ l1, log w' = log w ++ l1) as [l1 Hl1].
    { injection Hfound as <- <-.
      destruct (exists_on (disk w) (fixDir E)).
      - injection Hmk as <-. exists []. by rewrite app_nil_r.
      - apply mkdirSync_Ok_inv in Hmk as (_ & _ & _ & ->). simpl. eauto. }
    rewrite Hl2, Hl1, <- app_assoc in Hlog. apply app_inv_head in Hlog.
    subst l. apply elem_of_app. right. by apply (Hin f data).
  - intros Hwf Hcwd Hnofile Hfiles Hflat.
    assert (∀ f, f ∈ files →
              ∃ rel, f = cwd E ++ rel ∧ rel ≠ [] ∧ (".." ∉ rel) ∧
                     linted E newProgram f) as Hbelow.
    { intros f Hf. destruct (Hfiles f Hf) as (rel & -> & Hrel & Hlint & _).
      exists rel. split; [done|]. split; [done|]. split; [|done].
      intros Hin. apply (Hplain _ Hf). apply elem_of_app. by right. }
    assert (∀ rel, cwd E ++ rel ∈ files → rel ≠ [] ∧ clearFor (fixDir E) (disk w) rel)
      as Hclear.
    { intros rel Hin. destruct (Hfiles _ Hin) as (rel' & Heq & ? & _ & ?).
      apply app_inv_head in Heq. by subst rel'. }
    assert (∃ w',
      (if exists_on (disk w) (fixDir E) then mret tt else mkdirSync (fixDir E)) w
        = (Ok tt, w') ∧
      wellFormed (disk w') ∧ disk w' !! fixDir E = Some Dir ∧
      (∀ rel, cwd E ++ rel ∈ files → clearFor (fixDir E) (disk w') rel))
      as (w' & Hstart & Hwf' & Hfix' & Hclear').
    { destruct (exists_on (disk w) (fixDir E)) eqn:Hex.
      - exists w. split; [done|]. split; [done|].
        apply exists_on_true in Hex as [[|data] Hx]; [|by destruct (Hnofile data)].
        split; [done|]. intros rel Hin. by apply Hclear.
      - apply exists_on_false in Hex.
        assert (removelast (fixDir E) = cwd E) as Hparent
          by (rewrite fixDir_eq; apply removelast_snoc).
        assert (fixDir E ≠ []) as Hne by (rewrite fixDir_eq; by destruct (cwd E)).
        eexists. split.
        { unfold mkdirSync. rewrite decide_False by done.
          by rewrite Hparent, Hcwd, Hex. }
        simpl. split; [apply wellFormed_mkdir; by rewrite ?Hparent|].
        split; [by rewrite lookup_insert_eq|].
        intros rel Hin. destruct (Hclear rel Hin) as [Hrel [Hfilesabove Hdir]].
        split.
        + intros k data Hk. rewrite lookup_insert_ne; [by apply Hfilesabove|].
          intros Heq. apply (f_equal length) in Heq.
          rewrite length_app, length_take in Heq. lia.
        + rewrite lookup_insert_ne; [done|].
          intros Heq. apply (f_equal length) in Heq.
          rewrite length_app in Heq. destruct rel; simpl in Heq; [done|lia]. }
    destruct (forOf_prepared files newProgram Hbelow Hflat files [] w')
      as (w1 & Hloop & Hall); [done|by intros f ?%elem_of_nil|done..| |].
    { intros f data Hf. by apply elem_of_nil in Hf. }
    assert (analyzeAndPatch E files newProgram w = (Ok tt, w1)) as Hrun.
    { unfold analyzeAndPatch.
      rewrite (bind_Ok (existsSync _) _ _ _ _ eq_refl).
      by rewrite (bind_Ok _ _ _ _ _ Hstart). }
    split; [by rewrite Hrun|]. split.
    + intros f data Hf Hdata. rewrite Hrun. simpl. by apply Hall.
    + intros f Hf Hsome Hout. apply Hframe; [done|]. intros g Hg Heq.
      destruct (Hbelow g Hg) as (rel & -> & _ & Hp & _).
      rewrite mirrored_below in Heq by done. apply Hout. by exists rel.
Qed.

End Whole.

Lemma analyzeAndPatch_patches_mirrors_witness :
  (analyzeAndPatch (demoEnv [] demoResult) [["r"; "src"; "a.ts"]] tt
     demoWorld).1 = Ok tt ∧
  disk (analyzeAndPatch (demoEnv [] demoResult) [["r"; "src"; "a.ts"]] tt
          demoWorld).2 !! ["r"; "fixes"; "src"; "a.ts"]
    = Some (File (lit "abcYYef")) ∧
  disk (analyzeAndPatch (demoEnv [] demoResult) [["r"; "src"; "a.ts"]] tt
          demoWorld).2 !! ["r"; "src"; "a.ts"]
    = Some (File (lit "abcdef")).
Proof.
  destruct (analyzeAndPatch_patches_mirrors (demoEnv [] demoResult)
              [["r"; "src"; "a.ts"]] tt demoWorld)
    as (_ & _ & _ & Hprepared).
  { apply Forall_cons. split; [exact demoFile_plain|]. apply Forall_nil_2. }
  destruct Hprepared as (Hok & Hcopy & Hsource).
  - exact demoWorld_wellFormed.
  - reflexivity.
  - intros data. vm_compute. discriminate.
  - intros f Hf. apply list_elem_of_singleton in Hf as ->.
    exists ["src"; "a.ts"]. split; [reflexivity|]. split; [discriminate|].
    split; [by exists (lit "abcdef"), demoResult|]. split.
    + intros k data Hk. simpl in Hk. assert (k = 1%nat) as -> by lia.
      vm_compute. discriminate.
    + vm_compute. discriminate.
  - intros f g Hf Hg _. apply list_elem_of_singleton in Hf as ->.
    by apply list_elem_of_singleton in Hg as ->.
  - split; [exact Hok|]. split.
    + apply (Hcopy ["r"; "src"; "a.ts"] (lit "abcYYef"));
        [by apply list_elem_of_singleton|reflexivity].
    + apply (Hsource ["r"; "src"; "a.ts"]); [by apply list_elem_of_singleton| |].
      * vm_compute. eexists. reflexivity.
      * intros [rest Hrest]. discriminate.
Defined.

(** C8, as stated, fails for a listed file that lies at the mirrored
    path of another listed file: with [/r/a.ts] and [/r/fixes/a.ts]
    both listed, the round for the first writes its patched copy over
    the second. *)
Lemma analyzeAndPatch_overwrites_listed_source :
  ¬ (∀ (E : Env) (files : list abspath) (newProgram : Program E) (w : world)
       (f : abspath) (data : str),
       Forall (λ f, ".." ∉ f) files → f ∈ files →
       patchedText E newProgram f = Some data →
       is_Some (disk w !! f) →
       disk (analyzeAndPatch E files newProgram w).2 !! f = disk w !! f).
Proof.
  intros H.
  specialize (H (demoEnv [] demoResult) [["r"; "a.ts"]; ["r"; "fixes"; "a.ts"]]
                tt rerunWorld ["r"; "fixes"; "a.ts"] (lit "abcYYef")).
  assert (".." ∉ ["r"; "a.ts"]) as H1
    by (rewrite !not_elem_of_cons; repeat split; [done..|]; apply not_elem_of_nil).
  assert (".." ∉ ["r"; "fixes"; "a.ts"]) as H2
    by (rewrite !not_elem_of_cons; repeat split; [done..|]; apply not_elem_of_nil).
  assert (Forall (λ f : abspath, ".." ∉ f)
            [["r"; "a.ts"]; ["r"; "fixes"; "a.ts"]]) as Hplain
    by (repeat (constructor; [done|]); constructor).
  assert (["r"; "fixes"; "a.ts"] ∈ [["r"; "a.ts"]; ["r"; "fixes"; "a.ts"]])
    as Hlisted by (right; left).
  specialize (H Hplain Hlisted eq_refl (ex_intro _ (File (lit "abcdef")) eq_refl)).
  vm_compute in H. discriminate.
Qed.

(** ** The recursion budget inside [main] is never used up *)





Section Ends.

Context (E : Env).






End Ends.

(** ** The phases of [main], one after the other *)

Section Phases.

Context (E : Env).

Lemma configLoad_cases project base w :
  configLoad E project base w =
    match disk w !! locate E project with
    | None => (Throw (absentFault (disk w) (locate E project)), w)
    | Some n =>
        let base' :=
          join (cwd E)
            (default (match n with File _ => dirname project | Dir => project end)
                     base) in
        (match readConfiguration E project base' (disk w) with
         | inl e => Throw e
         | inr cfg =>
             Ok (cfg.1, mkNgOptions base' (skipTemplateCodegen cfg.2)
                          (skipMetadataEmit cfg.2))
         end,
         mkWorld (disk w) (log w ++ [ReadConfiguration]))
    end.
Proof.
  unfold configLoad, mbind, M_bind, lstatSync_isFile, tsc_readConfiguration.
  destruct (disk w !! locate E project) as [[|data]|]; [| |done]; simpl;
    by destruct (readConfiguration E _ _ _).
Qed.

Lemma compile_cases parsed ngOptions codegen w :
  compile E parsed ngOptions codegen w =
    let host := createCompilerHost E (options parsed) in
    let program := initialProgram E parsed (disk w) in
    let w1 := mkWorld (disk w)
                (log w ++ [CreateProgram false; GetOptionsDiagnostics]) in
    match getOptionsDiagnostics E program with
    | _ :: _ => (Throw OptionsDiagnosticError, w1)
    | [] =>
        match runCodegen E (chooseCodegen E ngOptions codegen) ngOptions
                program host w1 with
        | (Ok _, w2) => afterCodegen E parsed ngOptions host program w2
        | (Throw e, w2) => (Throw e, w2)
        | (OutOfFuel, w2) => (OutOfFuel, w2)
        end
    end.
Proof.
  unfold compile, mbind, M_bind, ts_createProgram, program_getOptionsDiagnostics,
    initialProgram.
  simpl. rewrite <- !app_assoc. simpl.
  by destruct (getOptionsDiagnostics E _).
Qed.

Lemma afterCodegen_cases parsed ngOptions host program w :
  afterCodegen E parsed ngOptions host program w =
    let newProgram :=
      createProgram E (fileNames parsed) (options parsed) host (Some program)
        (disk w) in
    let w1 := mkWorld (disk w) (log w ++ [CreateProgram true; TypeCheck]) in
    match typeCheck E host newProgram with
    | inl e => (Throw e, w1)
    | inr _ =>
        match analyzeAndPatch E (fileNames parsed) newProgram w1 with
        | (Ok _, w2) =>
            match emit E (TsickleHost host newProgram) newProgram (disk w2) with
            | (inl e, d) => (Throw e, mkWorld d (log w2 ++ [EmitPrimary]))
            | (inr _, d) =>
                if skipMetadataEmit ngOptions
                then (Ok tt, mkWorld d (log w2 ++ [EmitPrimary]))
                else
                  let '(r, d') :=
                    emit E (MetadataWriterHost host newProgram) newProgram d in
                  (completion r,
                   mkWorld d' (log w2 ++ [EmitPrimary; EmitMetadata]))
            end
        | other => other
        end
    end.
Proof.
  unfold afterCodegen, mbind, M_bind, ts_createProgram, tsc_typeCheck. simpl.
  rewrite <- !app_assoc. simpl.
  destruct (typeCheck E host _) as [e|[]]; simpl; [done|].
  destruct (analyzeAndPatch E _ _ _) as [[[]|e|] w2]; [|done..].
  unfold tsc_emit. destruct (emit E (TsickleHost _ _) _ _) as [[e|[]] d]; simpl;
    [done|].
  destruct (skipMetadataEmit ngOptions); simpl; [done|].
  destruct (emit E (MetadataWriterHost _ _) _ _) as [r d']. simpl.
  by rewrite <- !app_assoc.
Qed.

Lemma steps_analyzeAndPatch (Q : event → Prop) files newProgram :
  (∀ p, Q (Mkdir p)) → (∀ f, Q (Lint f)) → (∀ o, Q (LogOutput o)) →
  (∀ np, Q (LogCreatingFix np)) → (∀ p data, Q (WriteFile p data)) →
  steps (λ _, True) Q (analyzeAndPatch E files newProgram).
Proof.
  intros Hmk Hlint Hout Hfix Hwrite. unfold analyzeAndPatch.
  apply steps_bind; [apply steps_existsSync|]. intros found.
  apply steps_bind.
  { destruct found; [apply steps_ret|]. by apply steps_mkdirSync. }
  intros _. apply steps_forOf. intros file _.
  by apply steps_processFile.
Qed.

(** X13. The emitters come last and in one order.  In every run of the
    callback that follows codegen, the calls end with no emitter call,
    with the primary emitter alone, or with the primary emitter directly
    followed by the metadata emitter, and no emitter is called before
    that; the metadata emitter is never called when [skipMetadataEmit]
    is set; and a run that returns has called the primary emitter, and
    the metadata emitter too unless it was skipped. *)
Theorem afterCodegen_emits_last (parsed : ParsedCommandLine (CompilerOptions E))
    (ngOptions : NgOptions) (host : Host E) (program : Program E) (w : world) :
  ∃ l t,
    log (afterCodegen E parsed ngOptions host program w).2 = log w ++ l ++ t ∧
    Forall notEmit l ∧ emitTail t ∧
    (skipMetadataEmit ngOptions = true → EmitMetadata ∉ t) ∧
    ((afterCodegen E parsed ngOptions host program w).1 = Ok tt →
     t = if skipMetadataEmit ngOptions then [EmitPrimary]
         else [EmitPrimary; EmitMetadata]).
Proof.
  rewrite afterCodegen_cases. cbv zeta.
  set (newProgram := createProgram E _ _ host (Some program) _).
  set (w1 := mkWorld (disk w) (log w ++ [CreateProgram true; TypeCheck])).
  assert (Forall notEmit [CreateProgram true; TypeCheck]) as Hhead
    by (repeat constructor; done).
  destruct (typeCheck E host newProgram) as [e|[]].
  { exists [CreateProgram true; TypeCheck], []. simpl. rewrite ?app_nil_r.
    split; [done|]. split; [done|]. split; [by left|].
    split; [intros _; apply not_elem_of_nil|done]. }
  destruct (steps_analyzeAndPatch notEmit (fileNames parsed) newProgram) with (w := w1)
    as (_ & l1 & Hl1 & Hnot); [done..|].
  assert (Forall notEmit ([CreateProgram true; TypeCheck] ++ l1)) as Hl
    by by apply Forall_app.
  destruct (analyzeAndPatch E (fileNames parsed) newProgram w1) as [[[]|e|] w2];
    simpl in Hl1.
  2,3: exists ([CreateProgram true; TypeCheck] ++ l1), []; simpl;
       rewrite Hl1, ?app_nil_r, <- ?app_assoc;
       (split; [done|]); (split; [done|]); (split; [by left|]);
       (split; [intros _; apply not_elem_of_nil|done]).
  destruct (emit E (TsickleHost host newProgram) newProgram (disk w2))
    as [[e|[]] d].
  { exists ([CreateProgram true; TypeCheck] ++ l1), [EmitPrimary]. simpl.
    rewrite Hl1, <- !app_assoc. split; [done|]. split; [done|].
    split; [by right; left|]. split; [|done].
    intros _ Hin. apply list_elem_of_singleton in Hin. done. }
  destruct (skipMetadataEmit ngOptions).
  { exists ([CreateProgram true; TypeCheck] ++ l1), [EmitPrimary]. simpl.
    rewrite Hl1, <- !app_assoc. split; [done|]. split; [done|].
    split; [by right; left|]. split; [|done].
    intros _ Hin. apply list_elem_of_singleton in Hin. done. }
  destruct (emit E (MetadataWriterHost host newProgram) newProgram d) as [r d'].
  exists ([CreateProgram true; TypeCheck] ++ l1), [EmitPrimary; EmitMetadata].
  simpl. rewrite Hl1, <- !app_assoc. split; [done|]. split; [done|].
  split; [by right; right|]. split; [done|done].
Qed.

Lemma steps_afterCodegen (Q : event → Prop) parsed ngOptions host program :
  (∀ e, e ≠ Codegen → Q e) →
  steps (λ _, True) Q (afterCodegen E parsed ngOptions host program).
Proof.
  intros HQ.
  assert (∀ h p, steps (λ _, True) Q (tsc_emit E h p)) as Hemit.
  { intros h p w _. split; [done|]. unfold tsc_emit.
    destruct (emit E h p (disk w)) as [r d]. simpl.
    eexists [_]. split; [done|]. repeat constructor. apply HQ. by destruct h. }
  unfold afterCodegen. apply steps_bind.
  { intros w _. split; [done|]. eexists [_]. split; [done|].
    repeat constructor. by apply HQ. }
  intros newProgram. apply steps_bind.
  { intros w _. split; [done|]. eexists [_]. split; [done|].
    repeat constructor. by apply HQ. }
  intros _. apply steps_bind.
  { apply steps_analyzeAndPatch; intros; by apply HQ. }
  intros _. apply steps_bind; [apply Hemit|]. intros _.
  destruct (negb _); [apply Hemit|apply steps_ret].
Qed.

(** X14. With an extension supplied and [skipTemplateCodegen] not set,
    a run that passes the options check calls the extension exactly
    once, right after the diagnostics query, with the first program and
    the disk as it was.  If the extension fails, [main] is rejected
    with its fault and nothing further is called; if it completes, the
    rest of the run starts from the disk the extension left. *)
Theorem main_runs_codegen_once (project : path) (base : option path)
    (ext : CodegenExtension E) (w w0 : world)
    (cfg : ParsedCommandLine (CompilerOptions E) * NgOptions) :
  configLoad E project base w = (Ok cfg, w0) →
  getOptionsDiagnostics E (initialProgram E cfg.1 (disk w0)) = [] →
  skipTemplateCodegen cfg.2 = false →
  let host := createCompilerHost E (options cfg.1) in
  let program := initialProgram E cfg.1 (disk w) in
  let r := ext cfg.2 program host (disk w) in
  let w2 := mkWorld r.2
              (log w ++ [ReadConfiguration; CreateProgram false;
                         GetOptionsDiagnostics; Codegen]) in
  main E project base (Some ext) w =
    match r.1 with
    | inl e => (Throw e, w2)
    | inr _ => afterCodegen E cfg.1 cfg.2 host program w2
    end ∧
  ∃ rest, log (main E project base (Some ext) w).2 = log w2 ++ rest ∧
          Forall (λ e, e ≠ Codegen) rest.
Proof.
  intros Hcfg Hdiags Hskip host program r w2.
  pose proof (configLoad_Ok_inv _ _ _ _ _ _ Hcfg) as ->.
  assert (main E project base (Some ext) w =
          match r.1 with
          | inl e => (Throw e, w2)
          | inr _ => afterCodegen E cfg.1 cfg.2 host program w2
          end) as Hmain.
  { unfold main. rewrite (bind_Ok _ _ _ _ _ Hcfg). rewrite compile_cases.
    cbv zeta. simpl disk. simpl disk in Hdiags. rewrite Hdiags.
    unfold chooseCodegen. rewrite Hskip. simpl.
    subst w2 r program host. rewrite <- !app_assoc. simpl.
    destruct (ext _ _ _ _) as [[e|[]] d]; simpl; done. }
  split; [exact Hmain|]. rewrite Hmain.
  destruct r.1 as [e|[]].
  - exists []. by rewrite app_nil_r.
  - destruct (steps_afterCodegen (λ e, e ≠ Codegen) cfg.1 cfg.2 host program)
      with (w := w2) as (_ & rest & Hrest & Hnot); [done|done|].
    by exists rest.
Qed.


(** X16. The base path kept in the options is always the given base
    path (or, when none is given, the project directory) appended to
    the working directory - also when that path is absolute - and it
    replaces whatever [readConfiguration] returned.  The project
    directory is the locator itself, or its parent when the locator
    names a file. *)
Theorem configLoad_basePath (project : path) (base : option path) (w w0 : world)
    (cfg : ParsedCommandLine (CompilerOptions E) * NgOptions) :
  configLoad E project base w = (Ok cfg, w0) →
  ".." ∉ segments project → (∀ p, base = Some p → ".." ∉ segments p) →
  basePath cfg.2 =
    cwd E ++ match base with
             | Some p => segments p
             | None =>
                 match disk w !! locate E project with
                 | Some (File _) => removelast (segments project)
                 | _ => segments project
                 end
             end.
Proof.
  intros Hcfg Hproject Hbase. rewrite configLoad_cases in Hcfg.
  destruct (disk w !! locate E project) as [n|]; [|done].
  cbv zeta in Hcfg. destruct (readConfiguration E _ _ _) as [?|c]; [done|].
  injection Hcfg as <- _. simpl. destruct base as [p|]; simpl.
  - apply join_plain. by apply Hbase.
  - destruct n; apply join_plain; [done|]. by apply not_elem_of_removelast.
Qed.



(** [-p 2016] on the demo disk. *)
Example cli_numeric_locator :
  cli (demoEnv [] demoResult) (mkArgs (ArgOther true) ArgAbsent ArgAbsent)
      demoWorld
  = Some (mkExit (Some 1) [Stack TypeError; CompilationFailed] demoWorld).
Proof. reflexivity. Qed.

(** X18. A fault of the type checker rejects the run right after the
    second program is built: the [fixes] directory is not made, no file
    is linted and no emitter is called.  A fault inside the loop over
    the files rejects the run with the state the loop left, and again
    no emitter is called. *)
Theorem afterCodegen_fault_stops (parsed : ParsedCommandLine (CompilerOptions E))
    (ngOptions : NgOptions) (host : Host E) (program : Program E) (w : world)
    (e : error) :
  let newProgram :=
    createProgram E (fileNames parsed) (options parsed) host (Some program)
      (disk w) in
  let w1 := mkWorld (disk w) (log w ++ [CreateProgram true; TypeCheck]) in
  typeCheck E host newProgram = inl e ∨
  (typeCheck E host newProgram = inr tt ∧
   (analyzeAndPatch E (fileNames parsed) newProgram w1).1 = Throw e) →
  afterCodegen E parsed ngOptions host program w =
    (Throw e,
     match typeCheck E host newProgram with
     | inl _ => w1
     | inr _ => (analyzeAndPatch E (fileNames parsed) newProgram w1).2
     end).
Proof.
  intros newProgram w1 Hfault. rewrite afterCodegen_cases. cbv zeta.
  fold newProgram. fold w1.
  destruct Hfault as [->|[-> Hloop]]; [done|].
  destruct (analyzeAndPatch E (fileNames parsed) newProgram w1) as [[[]|e'|] w2];
    simpl in Hloop; [done| |done].
  by injection Hloop as ->.
Qed.

End Phases.

Lemma afterCodegen_fault_stops_witness :
  afterCodegen demoEnvIllTyped (mkParsed [["r"; "src"; "a.ts"]] tt)
    (mkNgOptions ["r"] false false) tt tt demoWorld
  = (Throw (Fault "TS2322"),
     mkWorld (disk demoWorld) [CreateProgram true; TypeCheck]).
Proof.
  refine (afterCodegen_fault_stops demoEnvIllTyped
            (mkParsed [["r"; "src"; "a.ts"]] tt) (mkNgOptions ["r"] false false)
            tt tt demoWorld (Fault "TS2322") _).
  left. reflexivity.
Defined.

Lemma main_runs_codegen_once_witness :
  ∃ rest,
    log (main (demoEnv [] demoResult) dot None (Some (λ _ _ _ d, (inr tt, d)))
           demoWorld).2
    = [ReadConfiguration; CreateProgram false; GetOptionsDiagnostics; Codegen]
      ++ rest ∧
    Forall (λ e, e ≠ Codegen) rest.
Proof.
  refine (proj2 (main_runs_codegen_once (demoEnv [] demoResult) dot None
                   (λ _ _ _ d, (inr tt, d)) demoWorld
                   (mkWorld (disk demoWorld) [ReadConfiguration])
                   (mkParsed [["r"; "src"; "a.ts"]] tt, mkNgOptions ["r"] false false)
                   _ _ _)).
  - vm_compute. reflexivity.
  - reflexivity.
  - reflexivity.
Defined.


Lemma configLoad_basePath_witness :
  basePath (mkNgOptions ["r"; "abs"; "lib"] false false) = ["r"; "abs"; "lib"].
Proof.
  refine (configLoad_basePath (demoEnv [] demoResult) dot
            (Some (mkPath true ["abs"; "lib"])) demoWorld
            (mkWorld (disk demoWorld) [ReadConfiguration])
            (mkParsed [["r"; "src"; "a.ts"]] tt,
             mkNgOptions ["r"; "abs"; "lib"] false false) _ _ _).
  - vm_compute. reflexivity.
  - apply not_elem_of_nil.
  - intros p [= <-]. simpl.
    rewrite !not_elem_of_cons. repeat split; [done..|]. apply not_elem_of_nil.
Defined.
